(** * subjs: the fetch / extract / resolve pipeline of [runner/subjs/runner.go]

    A shallow embedding of the crawler's worker ([fetch]), of the bundle
    heuristics ([ProcessWebpackFile], [parseJSMap]), of the URL resolver
    ([resolveScriptURL]) and of the dispatcher ([Run]), followed by the
    properties of the specification that concern them.

    Go strings are byte strings: they are modelled by [string] (a list of
    8-bit [ascii]).  The two [map[string]bool] duplicate sets and the
    [map[string]string] chunk maps are [gmap]s.  Everything the program gets
    from outside (the network, the HTML parser, [url.Parse], the input file,
    the iteration order of a Go map, the scheduling of the workers) is a field
    of the class [Env]. *)

From Stdlib Require Import Ascii NArith ZArith.
From stdpp Require Import base option list gmap strings fin_maps.

(** ** Go's [strings] package *)

Module strings.

Definition HasPrefix (s pre : string) : bool := String.prefix pre s.

Fixpoint Contains (s sub : string) : bool :=
  String.prefix sub s ||
  match s with
  | EmptyString => false
  | String _ t => Contains t sub
  end.

(** [strings.Cut(s, sep)] for a one-byte separator: the text before the
    first [sep] (all of [s] when there is none). *)
Fixpoint CutBefore (s : string) (sep : ascii) : string :=
  match s with
  | EmptyString => EmptyString
  | String c t => if Ascii.eqb c sep then EmptyString else String c (CutBefore t sep)
  end.

Fixpoint forallb (p : ascii → bool) (s : string) : bool :=
  match s with
  | EmptyString => true
  | String c t => p c && forallb p t
  end.

End strings.

(** The double quote, which the patterns and the bundles are full of. *)
Definition dq : string := String (ascii_of_nat 34) EmptyString.

(** ** Go's [regexp], for the patterns of the program

    The patterns of the program are sequences of literals, capture groups
    and greedy repetitions of one character class.  [regexp] returns the
    leftmost match and, among the matches that start there, the one a
    backtracking matcher finds first; [rmatch] is that backtracking matcher,
    in continuation-passing style.  Matching is on bytes: every class below is
    either a set of ASCII bytes or the complement of one ASCII byte, so the
    bytes of a multi-byte rune are taken or refused together. *)

Module regexp.

Inductive regex : Type :=
| Lit (l : string)               (* literal text *)
| Plus (cls : ascii → bool)      (* [cls]+ , greedy *)
| Star (cls : ascii → bool)      (* [cls]* , greedy *)
| Group (r : regex)              (* ( r ) , capturing *)
| Seq (r1 r2 : regex).

Fixpoint strip (l s : string) : option string :=
  match l, s with
  | EmptyString, _ => Some s
  | String a l', String b s' => if Ascii.eqb a b then strip l' s' else None
  | String _ _, EmptyString => None
  end.

(** The text consumed between [s] and its suffix [rest]. *)
Definition consumed (s rest : string) : string :=
  String.substring 0 (String.length s - String.length rest) s.

(** Greedy repetition: take one more byte of the class first, and fall back
    to stopping here when the continuation fails. *)
Fixpoint star {A} (cls : ascii → bool) (s : string) (k : string → option A) : option A :=
  match s with
  | String c t =>
      if cls c then
        match star cls t k with
        | Some x => Some x
        | None => k s
        end
      else k s
  | EmptyString => k s
  end.

Fixpoint rmatch {A} (r : regex) (s : string) (caps : list string)
    (k : string → list string → option A) : option A :=
  match r with
  | Lit l =>
      match strip l s with
      | Some rest => k rest caps
      | None => None
      end
  | Plus cls =>
      match s with
      | String c t => if cls c then star cls t (λ rest, k rest caps) else None
      | EmptyString => None
      end
  | Star cls => star cls s (λ rest, k rest caps)
  | Group r1 => rmatch r1 s caps (λ rest caps', k rest (caps' ++ [consumed s rest]))
  | Seq r1 r2 => rmatch r1 s caps (λ rest caps', rmatch r2 rest caps' k)
  end.

(** A match anchored at the start of [s]: the slice Go returns (the whole
    match, then the groups). *)
Definition match_here (r : regex) (s : string) : option (list string) :=
  rmatch r s [] (λ rest caps, Some (consumed s rest :: caps)).

(** [FindStringSubmatch]: the leftmost match, [[]] (Go's nil) when none. *)
Fixpoint FindStringSubmatch (r : regex) (s : string) : list string :=
  match match_here r s with
  | Some m => m
  | None =>
      match s with
      | String _ t => FindStringSubmatch r t
      | EmptyString => []
      end
  end.

(** [FindAllStringSubmatch(s, -1)]: the successive non-overlapping leftmost
    matches.  [skip] counts the bytes of the previous match that are still
    to be stepped over.  (Every pattern of the program contains a literal,
    so no match is empty.) *)
Fixpoint find_all (r : regex) (s : string) (skip : nat) {struct s} : list (list string) :=
  match skip with
  | S n =>
      match s with
      | String _ t => find_all r t n
      | EmptyString => []
      end
  | O =>
      match match_here r s with
      | Some m =>
          m :: match s with
               | String _ t => find_all r t (String.length (hd EmptyString m) - 1)
               | EmptyString => []
               end
      | None =>
          match s with
          | String _ t => find_all r t 0
          | EmptyString => []
          end
      end
  end.

Definition FindAllStringSubmatch (r : regex) (s : string) : list (list string) :=
  find_all r s 0.

(** [FindAllString(s, -1)]: the whole matches only. *)
Definition FindAllString (r : regex) (s : string) : list string :=
  map (hd EmptyString) (find_all r s 0).

(** Character classes. *)
Definition between (lo hi c : ascii) : bool :=
  (N_of_ascii lo <=? N_of_ascii c)%N && (N_of_ascii c <=? N_of_ascii hi)%N.

Definition digit (c : ascii) : bool := between "0"%char "9"%char c.             (* \d *)
Definition word (c : ascii) : bool :=                                 (* \w *)
  digit c || between "A"%char "Z"%char c || between "a"%char "z"%char c || Ascii.eqb c "_"%char.
Definition other_than (x c : ascii) : bool := negb (Ascii.eqb c x).   (* [^x] *)

Fixpoint seq (rs : list regex) : regex :=
  match rs with
  | [] => Lit EmptyString
  | [r] => r
  | r :: rs' => Seq r (seq rs')
  end.

End regexp.

(** ** [net/url]: the three fields of [url.URL] the program uses *)

Module url.

Record URL : Type := mkURL { Scheme : string; Host : string; Path : string }.

Inductive encoding : Type := encodePath | encodeHost.

Definition is_one_of (cs : string) (c : ascii) : bool :=
  negb (strings.forallb (λ x, negb (Ascii.eqb x c)) cs).

(** [shouldEscape(c, mode)], for the two modes [String] uses here. *)
Definition shouldEscape (c : ascii) (mode : encoding) : bool :=
  if regexp.between "a"%char "z"%char c || regexp.between "A"%char "Z"%char c
     || regexp.between "0"%char "9"%char c then false
  else if match mode with
          | encodeHost => is_one_of ("!$&'()*+,;=:[]<>" +:+ dq) c
          | encodePath => false
          end then false
  else if is_one_of "-_.~" c then false
  else if is_one_of "$&+,/:;=?@" c then
    match mode with
    | encodePath => Ascii.eqb c "?"%char
    | encodeHost => true
    end
  else true.

Definition upperhex (n : N) : ascii :=
  match String.get (N.to_nat n) "0123456789ABCDEF" with
  | Some h => h
  | None => "0"%char
  end.

(** [escape(s, mode)]: each byte that must be escaped becomes [%XX]. *)
Fixpoint escape (s : string) (mode : encoding) : string :=
  match s with
  | EmptyString => EmptyString
  | String c t =>
      if shouldEscape c mode then
        String "%"%char
          (String (upperhex (N.shiftr (N_of_ascii c) 4))
             (String (upperhex (N.land (N_of_ascii c) 15)) (escape t mode)))
      else String c (escape t mode)
  end.

(** [u.EscapedPath()] when [RawPath] is empty. *)
Definition EscapedPath (u : URL) : string :=
  if String.eqb (Path u) "*" then "*" else escape (Path u) encodePath.

(** [u.String()] for a URL whose other fields (Opaque, User, RawPath,
    RawQuery, Fragment, OmitHost, ForceQuery) are zero. *)
Definition String (u : URL) : string :=
  let buf := if String.eqb (Scheme u) "" then "" else Scheme u +:+ ":" in
  let buf :=
    if negb (String.eqb (Scheme u) "") || negb (String.eqb (Host u) "") then
      let buf :=
        if negb (String.eqb (Host u) "") || negb (String.eqb (Path u) "")
        then buf +:+ "//" else buf in
      if negb (String.eqb (Host u) "") then buf +:+ escape (Host u) encodeHost else buf
    else buf in
  let path := EscapedPath u in
  let buf :=
    if negb (String.eqb path "") && negb (strings.HasPrefix path "/")
       && negb (String.eqb (Host u) "")
    then buf +:+ "/" else buf in
  let buf :=
    if String.eqb buf "" && strings.Contains (strings.CutBefore path "/"%char) ":"
    then buf +:+ "./" else buf in
  buf +:+ path.

End url.

Import url(URL, mkURL, Scheme, Host, Path).

(** ** The URL resolver and the bundle test *)

(** [resolveScriptURL] resolves a script path relative to a base URL. *)
Definition resolveScriptURL (baseURL : URL) (path : string) : string :=
  (* Already absolute URL *)
  if strings.HasPrefix path "http://" || strings.HasPrefix path "https://" then path
  (* Protocol-relative URL *)
  else if strings.HasPrefix path "//" then Scheme baseURL +:+ ":" +:+ path
  (* NextJS-specific path handling *)
  else if strings.HasPrefix path "/_next/" || strings.HasPrefix path "_next/" then
    let path := if negb (strings.HasPrefix path "/") then "/" +:+ path else path in
    Scheme baseURL +:+ "://" +:+ Host baseURL +:+ path
  else
    let path := if negb (strings.HasPrefix path "/") then "/" +:+ path else path in
    url.String (mkURL (Scheme baseURL) (Host baseURL) path).

(** [isWebpackBundle] determines if a URL appears to be a webpack bundle. *)
Definition isWebpackBundle (u : string) : bool :=
  strings.Contains u "webpack" || strings.Contains u "bundle"
  || strings.Contains u "chunks" || strings.Contains u "_next/static".

(** The closure [ensureNextPrefix] of [ProcessWebpackFile]. *)
Definition ensureNextPrefix (path : string) : string :=
  if negb (strings.HasPrefix path "/_next/") && negb (strings.HasPrefix path "_next/") then
    if strings.HasPrefix path "/" then "/_next" +:+ path
    else "/_next/" +:+ path
  else path.

(** ** The patterns *)

Module pat.
Import regexp.

Definition quote : ascii := ascii_of_nat 34.

(** The patterns are quoted with [Q] standing for the double quote.

    [(\d+)===e\?Q([^Q]+)Q] *)
Definition directChunkPattern : regex :=
  seq [Group (Plus digit); Lit ("===e?" +:+ dq);
       Group (Plus (other_than quote)); Lit dq].

(** [Q(static/chunks/)Q\+\(\({([^}]+)}\)\[e\]\|\|e\)\+Q\.Q\+\({([^}]+)}\)\[e\]\+Q\.jsQ] *)
Definition complexPattern : regex :=
  seq [Lit dq; Group (Lit "static/chunks/"); Lit (dq +:+ "+(({");
       Group (Plus (other_than "}"%char));
       Lit ("})[e]||e)+" +:+ dq +:+ "." +:+ dq +:+ "+({");
       Group (Plus (other_than "}"%char));
       Lit ("})[e]+" +:+ dq +:+ ".js" +:+ dq)].

(** [a\.p\+Q([^Q]+\.js)Q] *)
Definition publicPathPattern : regex :=
  seq [Lit ("a.p+" +:+ dq);
       Group (Seq (Plus (other_than quote)) (Lit ".js")); Lit dq].

(** [a\.u=e=>([^}]+)] *)
Definition auFunctionPattern : regex :=
  seq [Lit "a.u=e=>"; Group (Plus (other_than "}"%char))].

(** [(\d+)===e\?Q([^Q]+)Q], compiled a second time for pattern 4 *)
Definition chunkPattern : regex := directChunkPattern.

(** [(\d+):Q([^Q]+)Q] *)
Definition pairPattern : regex :=
  seq [Group (Plus digit); Lit (":" +:+ dq);
       Group (Plus (other_than quote)); Lit dq].

(** [[(\w./:)]*js], the pattern run over the text of a script element *)
Definition scriptTextPattern : regex :=
  seq [Star (λ c, word c || url.is_one_of "(./:)" c); Lit "js"].

End pat.

(** [m[i]] for a match slice. *)
Definition sub (m : list string) (i : nat) : string := nth i m EmptyString.

(** [parseJSMap] extracts key-value pairs from JavaScript object literal
    strings; a later pair with the same key overwrites an earlier one. *)
Definition parseJSMap (jsMapStr : string) : gmap string string :=
  foldl (λ result m, <[sub m 1 := sub m 2]> result) ∅
        (regexp.FindAllStringSubmatch pat.pairPattern jsMapStr).

(** ** What the program gets from outside *)

Record Options : Type := mkOptions {
  InputFile : string;
  Workers : Z;
  Timeout : Z;
  UserAgent : string
}.

Record Request : Type := mkRequest {
  Method : string;
  RequestURL : string;
  Header : list (string * string)
}.

(** What goquery gives for a parsed page: the elements [doc.Find] selects, in
    document order, with the attribute and the text the program reads. *)
Record ScriptTag : Type := mkScript {
  Attr_src : option string;            (* scriptTag.Attr("src") *)
  Contents_Text : string               (* scriptTag.Contents().Text() *)
}.

Record DivTag : Type := mkDiv {
  Attr_data_script_src : option string (* divTag.Attr("data-script-src") *)
}.

Record Document : Type := mkDocument {
  Find_script : list ScriptTag;
  Find_div : list DivTag
}.

Class Env : Type := {
  Response : Type;
  (** [http.NewRequest(method, url, nil)], [None] for an error *)
  http_NewRequest : string → string → option Request;
  (** [s.client.Do(req)] *)
  client_Do : Request → option Response;
  (** [ioutil.ReadAll(resp.Body)] *)
  ioutil_ReadAll : Response → option string;
  (** [goquery.NewDocumentFromReader(strings.NewReader(body))] *)
  goquery_NewDocumentFromReader : string → option Document;
  (** [url.Parse] *)
  url_Parse : string → option URL;
  (** the order in which [range] visits the entries of a map *)
  map_range : gmap string string → list (string * string);
  (** [os.Open(name)]: the lines the scanner reads from the file, or the
      text of the error *)
  os_Open : string → list string + string;
  (** the lines the scanner reads from [os.Stdin] *)
  os_Stdin : list string;
  (** the worker that receives the [i]-th value sent on [urls] *)
  receiver : nat → nat
}.

(** Go leaves the order of [range] over a map unspecified, but every entry is
    visited once. *)
Definition range_visits_each_entry_once `{Env} : Prop :=
  ∀ m : gmap string string, map_range m ≡ₚ map_to_list m.

(** ** The duplicate sets and the results channel *)

(** [m[u]] on a [map[string]bool]: [false] for an absent key. *)
Definition marked (m : gmap string bool) (u : string) : bool := default false (m !! u).

(** Where a value sent on [results] comes from: the worker's own extraction
    from a page (lines 135, 172, 178, 191), or [ProcessWebpackFile] run on a
    bundle (lines 228, 263, 278, 297).  The channel carries the string only;
    the origin is kept to state properties. *)
Inductive origin : Type :=
| FromPage
| FromBundle (webpackURL : string).

Global Instance origin_eq_dec : EqDecision origin.
Proof. solve_decision. Defined.

(** The state of one worker: its map of processed URLs and what it has sent
    on [results] so far, oldest first. *)
Record worker : Type := mkWorker {
  processedURLs : gmap string bool;
  results : list (origin * string)
}.

(** The lines of a worker's sends, as the sink prints them. *)
Definition lines (w : worker) : list string := (results w).*2.

(** [if !processedURLs[u] { results <- u; processedURLs[u] = true }] *)
Definition report (u : string) (w : worker) : worker :=
  if marked (processedURLs w) u then w
  else mkWorker (<[u := true]> (processedURLs w)) (results w ++ [(FromPage, u)]).

(** The same idiom on the local map [processedPaths] of
    [ProcessWebpackFile]; the second component collects the sends. *)
Definition report_chunk (resolvedURL : string)
    (st : gmap string bool * list string) : gmap string bool * list string :=
  if marked st.1 resolvedURL then st
  else (<[resolvedURL := true]> st.1, st.2 ++ [resolvedURL]).

Section Pipeline.
Context `{Env}.
Variable opts : Options.

(** ** Bundle heuristics *)

(** Pattern 1: direct chunk references. *)
Definition directChunkPaths (content : string) : list string :=
  map (λ m, sub m 2) (regexp.FindAllStringSubmatch pat.directChunkPattern content).

(** Pattern 2: complex mapping using two dictionaries; the value of
    [chunkPath] before [ensureNextPrefix], for each entry of [hashMap] in
    the order [range] visits them. *)
Definition complexPaths (content : string) : list string :=
  let complexMatches := regexp.FindStringSubmatch pat.complexPattern content in
  if (3 <? length complexMatches)%nat then
    let basePath := sub complexMatches 1 in
    let idMapStr := sub complexMatches 2 in
    let hashMapStr := sub complexMatches 3 in
    let idMap := parseJSMap idMapStr in
    let hashMap := parseJSMap hashMapStr in
    map (λ '(id, hash),
           let chunkName := match idMap !! id with
                            | Some namedID => namedID
                            | None => id
                            end in
           basePath +:+ chunkName +:+ "." +:+ hash +:+ ".js")
        (map_range hashMap)
  else [].

(** Pattern 3: public path concatenation. *)
Definition publicPaths (content : string) : list string :=
  map (λ m, sub m 1) (regexp.FindAllStringSubmatch pat.publicPathPattern content).

(** Pattern 4: the [a.u] function that maps IDs to file paths. *)
Definition auPaths (content : string) : list string :=
  let auMatches := regexp.FindStringSubmatch pat.auFunctionPattern content in
  if (1 <? length auMatches)%nat then
    let auContent := sub auMatches 1 in
    map (λ m, sub m 2) (regexp.FindAllStringSubmatch pat.chunkPattern auContent)
  else [].

(** One of the four loops: every path is normalised, resolved against the
    bundle's URL and sent unless it was sent before in this call. *)
Definition report_chunks (baseURL : URL) (paths : list string)
    (st : gmap string bool * list string) : gmap string bool * list string :=
  foldl (λ st chunkPath,
           report_chunk (resolveScriptURL baseURL (ensureNextPrefix chunkPath)) st)
        st paths.

(** [ProcessWebpackFile] extracts all JavaScript chunk paths from a webpack
    bundle; the result is what it sends on [results], in order. *)
Definition ProcessWebpackFile (webpackURL content : string) : list string :=
  match url_Parse webpackURL with
  | None => []
  | Some baseURL =>
      let st := (∅, []) in
      let st := report_chunks baseURL (directChunkPaths content) st in
      let st := report_chunks baseURL (complexPaths content) st in
      let st := report_chunks baseURL (publicPaths content) st in
      let st := report_chunks baseURL (auPaths content) st in
      st.2
  end.

(** ** The worker *)

(** The GET of lines 96-113, written again at lines 141-157: build the
    request, add the user agent, send it, read the body. *)
Definition with_user_agent (req : Request) : Request :=
  if String.eqb (UserAgent opts) "" then req
  else mkRequest (Method req) (RequestURL req)
                 (Header req ++ [("User-Agent", UserAgent opts)]).

Definition http_get (u : string) : option string :=
  req ← http_NewRequest "GET" u;
  resp ← client_Do (with_user_agent req);
  ioutil_ReadAll resp.

(** Lines 128-163, the [src] attribute of a script element.  The boolean is
    [false] when the closure returns early (lines 143, 150, 156), which
    skips the scan of the element's text. *)
Definition script_src (parsedURL : URL) (scriptTag : ScriptTag) (w : worker) : worker * bool :=
  match Attr_src scriptTag with
  | Some js =>
      if String.eqb js "" then (w, true)
      else
        let resolvedJS := resolveScriptURL parsedURL js in
        if marked (processedURLs w) resolvedJS then (w, true)
        else
          let w := mkWorker (<[resolvedJS := true]> (processedURLs w))
                            (results w ++ [(FromPage, resolvedJS)]) in
          if isWebpackBundle resolvedJS then
            match http_get resolvedJS with
            | None => (w, false)
            | Some webpackBody =>
                (mkWorker (processedURLs w)
                   (results w ++ map (pair (FromBundle resolvedJS))
                                     (ProcessWebpackFile resolvedJS webpackBody)),
                 true)
            end
          else (w, true)
  | None => (w, true)
  end.

(** Lines 168-182, one match of the script-text pattern. *)
Definition script_text_ref (parsedURL : URL) (w : worker) (js : string) : worker :=
  if strings.HasPrefix js "//" then
    report (Scheme parsedURL +:+ ":" +:+ js) w
  else if strings.HasPrefix js "/" then
    report (Scheme parsedURL +:+ "://" +:+ Host parsedURL +:+ js) w
  else w.

(** Lines 165-182, the JS references in the content of a script element. *)
Definition script_text (parsedURL : URL) (text : string) (w : worker) : worker :=
  foldl (script_text_ref parsedURL) w
        (regexp.FindAllString pat.scriptTextPattern text).

(** The closure passed to [doc.Find("script").Each]. *)
Definition each_script (parsedURL : URL) (w : worker) (scriptTag : ScriptTag) : worker :=
  let '(w, continue) := script_src parsedURL scriptTag w in
  if continue then script_text parsedURL (Contents_Text scriptTag) w else w.

(** The closure passed to [doc.Find("div").Each]. *)
Definition each_div (parsedURL : URL) (w : worker) (divTag : DivTag) : worker :=
  match Attr_data_script_src divTag with
  | Some js =>
      if String.eqb js "" then w
      else report (resolveScriptURL parsedURL js) w
  | None => w
  end.

(** The body of the loop [for u := range urls]. *)
Definition fetch_url (w : worker) (u : string) : worker :=
  if marked (processedURLs w) u then w
  else
    let w := mkWorker (<[u := true]> (processedURLs w)) (results w) in
    match http_get u with
    | None => w
    | Some body =>
        match goquery_NewDocumentFromReader body with
        | None => w
        | Some doc =>
            match url_Parse u with
            | None => w
            | Some parsedURL =>
                let w := foldl (each_script parsedURL) w (Find_script doc) in
                foldl (each_div parsedURL) w (Find_div doc)
            end
        end
    end.

(** [fetch]: [urls] is the sequence of values this worker receives from the
    channel before it is closed. *)
Definition fetch (urls : list string) : worker :=
  foldl fetch_url (mkWorker ∅ []) urls.

(** ** The dispatcher *)

Inductive run_result : Type :=
| ReturnsError (err : string)
| ReturnsNil (streams : list (list string))
    (* [Run] returns nil; one stream of sends per worker, of which the
       sink prints an interleaving *)
| Blocks.
    (* the feeder waits for ever on [urls <- u]: no worker was started *)

(** The values of [urls] that worker [i] of [n] receives. *)
Definition received (n i : nat) (seeds : list string) : list string :=
  (filter (λ p, receiver p.1 `mod` n = i) (imap pair seeds)).*2.

Definition Run : run_result :=
  let input :=
    if String.eqb (InputFile opts) "" then inl os_Stdin
    else os_Open (InputFile opts) in
  match input with
  | inr err => ReturnsError ("Could not open input file: " +:+ err)
  | inl scanned =>
      let seeds := filter (λ u, u ≠ "") scanned in
      let n := Z.to_nat (Workers opts) in
      match n, seeds with
      | O, _ :: _ => Blocks
      | _, _ => ReturnsNil (map (λ i, lines (fetch (received n i seeds))) (seq 0 n))
      end
  end.

(** The ways the processing of one URL can fail: lines 97, 104, 111, 117
    and 122. *)
Inductive url_failure (u : string) : Prop :=
| request_construction :
    http_NewRequest "GET" u = None → url_failure u
| transport (req : Request) :
    http_NewRequest "GET" u = Some req →
    client_Do (with_user_agent req) = None → url_failure u
| body_read (req : Request) (resp : Response) :
    http_NewRequest "GET" u = Some req →
    client_Do (with_user_agent req) = Some resp →
    ioutil_ReadAll resp = None → url_failure u
| html_parse (body : string) :
    http_get u = Some body →
    goquery_NewDocumentFromReader body = None → url_failure u
| url_parse :
    url_Parse u = None → url_failure u.

End Pipeline.

(** ** Notions the properties are stated with *)

(** The path the generic branch of [resolveScriptURL] hands to [url.URL]. *)
Definition rooted (path : string) : string :=
  if strings.HasPrefix path "/" then path else "/" +:+ path.

(** The sends of a call are distinct and all marked in [processedPaths]. *)
Definition chunks_ok (st : gmap string bool * list string) : Prop :=
  NoDup st.2 ∧ ∀ u, u ∈ st.2 → marked st.1 u = true.

(** The URL whose mark guards a send: the sent URL itself for a send of the
    page extraction, the bundle's URL for a send of [ProcessWebpackFile]. *)
Definition guard (x : origin * string) : string :=
  match x.1 with
  | FromPage => x.2
  | FromBundle webpackURL => webpackURL
  end.

(** Line 94: [processedURLs[u] = true]. *)
Definition mark (u : string) (w : worker) : worker :=
  mkWorker (<[u := true]> (processedURLs w)) (results w).

(** [w'] comes after [w]: it has sent more, marks are never removed, the new
    sends are pairwise distinct, and the guard of each new send was not marked
    in [w] and is marked in [w']. *)
Definition extends (w w' : worker) : Prop :=
  ∃ new,
    results w' = results w ++ new ∧
    NoDup new ∧
    (∀ u, marked (processedURLs w) u = true → marked (processedURLs w') u = true) ∧
    (∀ x, x ∈ new → marked (processedURLs w) (guard x) = false
                    ∧ marked (processedURLs w') (guard x) = true).

(** The lines a worker sent from one origin. *)
Definition sent_from (o : origin) (w : worker) : list string :=
  (filter (λ x, x.1 = o) (results w)).*2.

(** The rule of the specification for a match of the script-text pattern. *)
Definition text_ref_url (parsedURL : URL) (js : string) : option string :=
  if strings.HasPrefix js "//" then Some (Scheme parsedURL +:+ ":" +:+ js)
  else if strings.HasPrefix js "/" then
    Some (Scheme parsedURL +:+ "://" +:+ Host parsedURL +:+ js)
  else None.

(** ** Scenarios *)

Module Scenario.

(** An environment given by tables: the body served at each URL, the
    document goquery makes of each body (an empty document for a body that
    is not in the table), and what [url.Parse] answers.  Requests never fail
    to build, [range] visits a map in the order of [map_to_list], the seeds
    come from standard input and one worker receives them all. *)
Definition table_env (pages : list (string * string))
    (docs : list (string * Document)) (parsed : list (string * URL))
    (stdin : list string) : Env := {|
  Response := string;
  http_NewRequest method u := Some (mkRequest method u []);
  client_Do req := (list_to_map pages : gmap string string) !! RequestURL req;
  ioutil_ReadAll resp := Some resp;
  goquery_NewDocumentFromReader body :=
    Some (default (mkDocument [] []) ((list_to_map docs : gmap string Document) !! body));
  url_Parse u := (list_to_map parsed : gmap string URL) !! u;
  map_range := map_to_list;
  os_Open name := inr ("open " +:+ name +:+ ": no such file or directory");
  os_Stdin := stdin;
  receiver i := 0
|}.

Definition opts : Options := mkOptions "" 1 15 "".

Definition seed : string := "https://ex.com/".
Definition bundleURL : string := "https://ex.com/_next/static/chunks/webpack-abc.js".
Definition mainURL : string := "https://ex.com/_next/static/chunks/main-def.js".
Definition chunkURL : string := "https://ex.com/_next/static/chunks/123-xyz.js".

(** The bundle of the end-to-end scenario: [123===e?] followed by the
    quoted path [static/chunks/123-xyz.js]. *)
Definition bundleBody : string :=
  "123===e?" +:+ dq +:+ "static/chunks/123-xyz.js" +:+ dq.

Definition parsed : list (string * URL) :=
  [ (seed, mkURL "https" "ex.com" "/");
    (bundleURL, mkURL "https" "ex.com" "/_next/static/chunks/webpack-abc.js");
    (mainURL, mkURL "https" "ex.com" "/_next/static/chunks/main-def.js");
    (chunkURL, mkURL "https" "ex.com" "/_next/static/chunks/123-xyz.js") ].

(** The page of the end-to-end scenario: one script element with a [src]. *)
Definition page : Document :=
  mkDocument [mkScript (Some "/_next/static/chunks/webpack-abc.js") ""] [].

Definition web : Env :=
  table_env [(seed, "<html>"); (bundleURL, bundleBody); (chunkURL, "console.log(1)")]
            [("<html>", page)] parsed [chunkURL; seed].

(** A page that loads two bundles, which both name the chunk [123-xyz]. *)
Definition page2 : Document :=
  mkDocument [mkScript (Some "/_next/static/chunks/webpack-abc.js") "";
              mkScript (Some "/_next/static/chunks/main-def.js") ""] [].

Definition web2 : Env :=
  table_env [(seed, "<html>"); (bundleURL, bundleBody); (mainURL, bundleBody)]
            [("<html>", page2)] parsed [seed].

End Scenario.

Module Pattern2Example.

(** The text [Q static/chunks/ Q+(({1:QaQ})[e]||e)+Q.Q+({1:Qh1Q,2:Qh2Q})[e]+Q.jsQ],
    with [Q] for the double quote. *)
Definition content : string :=
  dq +:+ "static/chunks/" +:+ dq +:+ "+(({1:" +:+ dq +:+ "a" +:+ dq +:+ "})[e]||e)+"
     +:+ dq +:+ "." +:+ dq +:+ "+({1:" +:+ dq +:+ "h1" +:+ dq +:+ ",2:" +:+ dq +:+ "h2"
     +:+ dq +:+ "})[e]+" +:+ dq +:+ ".js" +:+ dq.

End Pattern2Example.

(** The sends of a worker in the order the code makes them: a send of the
    page extraction can come at any time, a send of [ProcessWebpackFile] for
    the bundle [b] only right after the send of [b] itself by the page
    extraction, or right after another send for [b], and only when [b] passes
    the bundle test. *)
Inductive trace_ok : list (origin * string) → Prop :=
| trace_nil : trace_ok []
| trace_page (l : list (origin * string)) (u : string) :
    trace_ok l → trace_ok (l ++ [(FromPage, u)])
| trace_chunk (l : list (origin * string)) (b c : string) (prev : origin * string) :
    trace_ok l → isWebpackBundle b = true →
    last l = Some prev → guard prev = b →
    trace_ok (l ++ [(FromBundle b, c)]).

(** The URL a [data-script-src] attribute is reported as, if it is. *)
Definition div_ref_url (parsedURL : URL) (divTag : DivTag) : option string :=
  match Attr_data_script_src divTag with
  | Some js => if String.eqb js "" then None else Some (resolveScriptURL parsedURL js)
  | None => None
  end.

(** * Properties *)

(** ** The patterns on small inputs *)

Example scriptTextPattern_matches :
  regexp.FindAllString pat.scriptTextPattern
    "var a = '//cdn.x.com/a.js'; load('/b/c.js', foo.json, xjsyjs z)"
  = ["//cdn.x.com/a.js"; "/b/c.js"; "foo.js"; "xjsyjs"].
Proof. vm_compute. reflexivity. Qed.

Example directChunkPattern_matches :
  regexp.FindAllStringSubmatch pat.directChunkPattern
    ("a.u=e=>2986===e?" +:+ dq +:+ "static/chunks/2986-2488.js" +:+ dq
       +:+ ":7699===e?" +:+ dq +:+ "static/x.js" +:+ dq)
  = [["2986===e?" +:+ dq +:+ "static/chunks/2986-2488.js" +:+ dq;
      "2986"; "static/chunks/2986-2488.js"];
     ["7699===e?" +:+ dq +:+ "static/x.js" +:+ dq; "7699"; "static/x.js"]].
Proof. vm_compute. reflexivity. Qed.

Example parseJSMap_last_wins :
  parseJSMap ("1:" +:+ dq +:+ "a" +:+ dq +:+ ",1:" +:+ dq +:+ "b" +:+ dq) = {["1" := "b"]}.
Proof. vm_compute. reflexivity. Qed.

Example url_String_escapes :
  url.String (mkURL "https" "ex.com" "/a b.js?x=1") = "https://ex.com/a%20b.js%3Fx=1"
  ∧ url.String (mkURL "" "" "/foo.js") = "/foo.js".
Proof. split; vm_compute; reflexivity. Qed.

(** ** Strings *)

Lemma append_cons (x : ascii) (a b : string) : String x a +:+ b = String x (a +:+ b).
Proof. reflexivity. Qed.

Lemma append_assoc (a b c : string) : (a +:+ b) +:+ c = a +:+ (b +:+ c).
Proof. induction a as [|x a IH]; [done | by rewrite !append_cons, IH]. Qed.

Lemma HasPrefix_append (pre rest : string) : strings.HasPrefix (pre +:+ rest) pre = true.
Proof.
  unfold strings.HasPrefix. induction pre as [|x pre IH].
  - by destruct rest.
  - rewrite append_cons. simpl. by destruct (ascii_dec x x).
Qed.

Lemma HasPrefix_inv (s pre : string) :
  strings.HasPrefix s pre = true → ∃ rest, s = pre +:+ rest.
Proof.
  unfold strings.HasPrefix. revert s. induction pre as [|x pre IH]; intros s Hp.
  - by exists s.
  - destruct s as [|y s]; simpl in Hp; [done|].
    destruct (ascii_dec x y) as [->|]; [|done].
    destruct (IH s Hp) as [rest ->]. by exists rest.
Qed.

(** ** The resolver *)

(** C5. Whatever the base URL, a path that already begins with an explicit
    scheme, [http://] or [https://], is returned unchanged: the resolver is
    the identity on absolute URLs. *)
Theorem resolve_absolute_is_fixed (baseURL : URL) (path : string) :
  strings.HasPrefix path "http://" = true ∨ strings.HasPrefix path "https://" = true →
  resolveScriptURL baseURL path = path.
Proof.
  intros Habs. unfold resolveScriptURL.
  destruct Habs as [-> | ->]; [done|]. by rewrite orb_true_r.
Qed.

Lemma resolve_absolute_is_fixed_witness :
  resolveScriptURL (mkURL "http" "ex.com" "/a/b") "https://cdn.ex.org/lib.js"
  = "https://cdn.ex.org/lib.js".
Proof. apply resolve_absolute_is_fixed. right. reflexivity. Defined.

(** C6. Whatever the base URL, a path that begins with [//] resolves to the
    base's scheme, a colon, and the path. *)
Theorem resolve_protocol_relative (baseURL : URL) (path : string) :
  strings.HasPrefix path "//" = true →
  resolveScriptURL baseURL path = Scheme baseURL +:+ ":" +:+ path.
Proof.
  intros Hp. unfold resolveScriptURL.
  destruct (HasPrefix_inv _ _ Hp) as [rest Hrest].
  assert (strings.HasPrefix path "http://" = false) as -> by (by subst path).
  assert (strings.HasPrefix path "https://" = false) as -> by (by subst path).
  by rewrite Hp.
Qed.

Lemma resolve_protocol_relative_witness :
  resolveScriptURL (mkURL "https" "ex.com" "/a/b") "//cdn.ex.org/lib.js"
  = "https" +:+ ":" +:+ "//cdn.ex.org/lib.js".
Proof. apply resolve_protocol_relative. reflexivity. Defined.

(** *** The generic branch and [url.String] *)

Lemma escape_clean (s : string) (mode : url.encoding) :
  strings.forallb (λ c, negb (url.shouldEscape c mode)) s = true →
  url.escape s mode = s.
Proof.
  induction s as [|c s IH]; [done|]. simpl. intros [Hc Hs]%andb_prop.
  destruct (url.shouldEscape c mode); [done|]. by rewrite IH.
Qed.

(** A path with a leading slash keeps it when escaped. *)
Lemma escape_rooted (rest : string) :
  url.escape ("/" +:+ rest) url.encodePath = "/" +:+ url.escape rest url.encodePath.
Proof. reflexivity. Qed.

(** The text [url.String] gives for a scheme, a host and a rooted path. *)
Lemma String_rooted (scheme host path : string) :
  scheme ≠ "" →
  strings.HasPrefix path "/" = true →
  url.String (mkURL scheme host path)
  = scheme +:+ "://" +:+ url.escape host url.encodeHost +:+ url.escape path url.encodePath.
Proof.
  intros Hs Hp. destruct (HasPrefix_inv _ _ Hp) as [rest ->].
  unfold url.String, url.EscapedPath. cbn [Scheme Host Path].
  apply String.eqb_neq in Hs as Hs'. rewrite Hs'. cbn [negb orb].
  replace (String.eqb ("/" +:+ rest) "") with false by done.
  replace (String.eqb ("/" +:+ rest) "*") with false by done.
  rewrite orb_true_r, escape_rooted, HasPrefix_append. cbn [negb andb].
  destruct (String.eqb_spec host "") as [->|Hh]; cbn [negb];
    rewrite ?andb_false_r; cbn [andb]; by rewrite !append_assoc.
Qed.

Lemma rooted_HasPrefix (path : string) : strings.HasPrefix (rooted path) "/" = true.
Proof.
  unfold rooted. destruct (strings.HasPrefix path "/") eqn:Hp; [done|].
  apply HasPrefix_append.
Qed.

(** What the generic branch computes.  For a path that begins with none of
    [http://], [https://], [//], [/_next/], [_next/], the resolver returns the
    text [url.String] gives for the base's scheme, the base's host and the
    path with a leading slash added when it lacks one; the base's own path
    plays no part.  When the scheme is not empty that text is scheme, [://],
    the escaped host and the escaped path, and it is scheme + [://] + host +
    path when no byte is escaped. *)
Theorem resolve_generic (baseURL : URL) (path : string) :
  strings.HasPrefix path "http://" = false →
  strings.HasPrefix path "https://" = false →
  strings.HasPrefix path "//" = false →
  strings.HasPrefix path "/_next/" = false →
  strings.HasPrefix path "_next/" = false →
  resolveScriptURL baseURL path
    = url.String (mkURL (Scheme baseURL) (Host baseURL) (rooted path))
  ∧ (∀ otherPath, resolveScriptURL (mkURL (Scheme baseURL) (Host baseURL) otherPath) path
                  = resolveScriptURL baseURL path)
  ∧ (Scheme baseURL ≠ "" →
     resolveScriptURL baseURL path
       = Scheme baseURL +:+ "://" +:+ url.escape (Host baseURL) url.encodeHost
         +:+ url.escape (rooted path) url.encodePath)
  ∧ (Scheme baseURL ≠ "" →
     strings.forallb (λ c, negb (url.shouldEscape c url.encodeHost)) (Host baseURL) = true →
     strings.forallb (λ c, negb (url.shouldEscape c url.encodePath)) (rooted path) = true →
     resolveScriptURL baseURL path
       = Scheme baseURL +:+ "://" +:+ Host baseURL +:+ rooted path).
Proof.
  intros H1 H2 H3 H4 H5.
  assert (∀ b, resolveScriptURL b path = url.String (mkURL (Scheme b) (Host b) (rooted path)))
    as Hgen.
  { intros b. unfold resolveScriptURL, rooted. rewrite H1, H2, H3, H4, H5. cbn [orb].
    by destruct (strings.HasPrefix path "/"). }
  split; [apply Hgen|]. split; [intros; by rewrite !Hgen|].
  split.
  - intros Hs. rewrite Hgen. apply String_rooted; [done | apply rooted_HasPrefix].
  - intros Hs Hh Hp. rewrite Hgen, String_rooted; [|done | apply rooted_HasPrefix].
    by rewrite !escape_clean.
Qed.

Lemma resolve_generic_witness :
  resolveScriptURL (mkURL "https" "ex.com" "/docs/index.html") "js/app.js"
  = "https" +:+ "://" +:+ "ex.com" +:+ rooted "js/app.js".
Proof.
  apply (resolve_generic (mkURL "https" "ex.com" "/docs/index.html") "js/app.js");
    reflexivity || discriminate.
Defined.

(** C7. The generic branch at the path [app.js?v=1], which begins with none
    of the five prefixes, against the base [https://ex.com/]: the resolver
    gives [https://ex.com/app.js%3Fv=1], and not scheme + [://] + host + [/] +
    path, because [url.String] percent-encodes the question mark.  The other
    branches concatenate and keep it: the same query string after a path
    under [/_next/], or after a protocol-relative path, comes out unchanged. *)
Lemma resolve_generic_escapes_query :
  let baseURL := mkURL "https" "ex.com" "/" in
  let path := "app.js?v=1" in
  strings.HasPrefix path "http://" = false ∧
  strings.HasPrefix path "https://" = false ∧
  strings.HasPrefix path "//" = false ∧
  strings.HasPrefix path "/_next/" = false ∧
  strings.HasPrefix path "_next/" = false ∧
  resolveScriptURL baseURL path = "https://ex.com/app.js%3Fv=1" ∧
  resolveScriptURL baseURL path ≠ Scheme baseURL +:+ "://" +:+ Host baseURL +:+ "/" +:+ path ∧
  resolveScriptURL baseURL "/_next/app.js?v=1" = "https://ex.com/_next/app.js?v=1" ∧
  resolveScriptURL baseURL "//ex.com/app.js?v=1" = "https://ex.com/app.js?v=1".
Proof. repeat split; done. Qed.

(** *** Paths under [_next] *)

Lemma ensureNextPrefix_shape (path : string) :
  ∃ rest, ensureNextPrefix path = "/_next/" +:+ rest
          ∨ ensureNextPrefix path = "_next/" +:+ rest.
Proof.
  unfold ensureNextPrefix.
  destruct (strings.HasPrefix path "/_next/") eqn:H1; cbn [negb andb].
  { destruct (HasPrefix_inv _ _ H1) as [rest ->]. exists rest. by left. }
  destruct (strings.HasPrefix path "_next/") eqn:H2; cbn [negb].
  { destruct (HasPrefix_inv _ _ H2) as [rest ->]. exists rest. by right. }
  destruct (strings.HasPrefix path "/") eqn:H3.
  - destruct (HasPrefix_inv _ _ H3) as [rest ->]. exists rest. by left.
  - exists path. by left.
Qed.

Lemma resolve_next_rooted (baseURL : URL) (rest : string) :
  resolveScriptURL baseURL ("/_next/" +:+ rest)
  = Scheme baseURL +:+ "://" +:+ Host baseURL +:+ "/_next/" +:+ rest.
Proof.
  unfold resolveScriptURL.
  replace (strings.HasPrefix ("/_next/" +:+ rest) "http://") with false by done.
  replace (strings.HasPrefix ("/_next/" +:+ rest) "https://") with false by done.
  replace (strings.HasPrefix ("/_next/" +:+ rest) "//") with false by done.
  rewrite HasPrefix_append. cbn [orb].
  replace (strings.HasPrefix ("/_next/" +:+ rest) "/") with true; [done|].
  symmetry. apply (HasPrefix_append "/" ("_next/" +:+ rest)).
Qed.

Lemma resolve_next_unrooted (baseURL : URL) (rest : string) :
  resolveScriptURL baseURL ("_next/" +:+ rest)
  = Scheme baseURL +:+ "://" +:+ Host baseURL +:+ "/_next/" +:+ rest.
Proof.
  unfold resolveScriptURL.
  replace (strings.HasPrefix ("_next/" +:+ rest) "http://") with false by done.
  replace (strings.HasPrefix ("_next/" +:+ rest) "https://") with false by done.
  replace (strings.HasPrefix ("_next/" +:+ rest) "//") with false by done.
  replace (strings.HasPrefix ("_next/" +:+ rest) "/_next/") with false by done.
  rewrite HasPrefix_append. cbn [orb].
  by replace (strings.HasPrefix ("_next/" +:+ rest) "/") with false by done.
Qed.

(** What every chunk path becomes once normalised and resolved. *)
Lemma resolve_ensureNextPrefix (baseURL : URL) (chunkPath : string) :
  ∃ rest, resolveScriptURL baseURL (ensureNextPrefix chunkPath)
          = Scheme baseURL +:+ "://" +:+ Host baseURL +:+ "/_next/" +:+ rest.
Proof.
  destruct (ensureNextPrefix_shape chunkPath) as [rest [-> | ->]]; exists rest.
  - apply resolve_next_rooted.
  - apply resolve_next_unrooted.
Qed.

(** ** The duplicate maps *)

Lemma marked_insert (m : gmap string bool) (u v : string) :
  marked (<[u := true]> m) v = bool_decide (u = v) || marked m v.
Proof.
  unfold marked. rewrite lookup_insert.
  case_decide; [by rewrite bool_decide_eq_true_2 | by rewrite bool_decide_eq_false_2].
Qed.

Lemma marked_insert_eq (m : gmap string bool) (u : string) :
  marked (<[u := true]> m) u = true.
Proof. rewrite marked_insert. by rewrite bool_decide_eq_true_2. Qed.

Lemma marked_insert_mono (m : gmap string bool) (u v : string) :
  marked m v = true → marked (<[u := true]> m) v = true.
Proof. intros Hv. rewrite marked_insert, Hv. apply orb_true_r. Qed.

Lemma marked_insert_inv (m : gmap string bool) (u v : string) :
  marked (<[u := true]> m) v = true → v = u ∨ marked m v = true.
Proof.
  rewrite marked_insert. intros [Hu%bool_decide_eq_true | Hv]%orb_prop; auto.
Qed.

Lemma marked_empty (u : string) : marked ∅ u = false.
Proof. unfold marked. by rewrite lookup_empty. Qed.

(** ** The bundle heuristics *)

Section Bundle.
Context `{Env}.

Lemma report_chunk_ok (u : string) (st : gmap string bool * list string) :
  chunks_ok st → chunks_ok (report_chunk u st).
Proof.
  intros [Hnd Hm]. unfold report_chunk.
  destruct (marked st.1 u) eqn:Hu; [done|]. split; simpl.
  - apply NoDup_app. split_and!; [done | | apply NoDup_singleton].
    intros x Hx ->%list_elem_of_singleton. apply Hm in Hx. congruence.
  - intros x [Hx | ->%list_elem_of_singleton]%elem_of_app.
    + by apply marked_insert_mono, Hm.
    + apply marked_insert_eq.
Qed.

Lemma report_chunk_elem (u x : string) (st : gmap string bool * list string) :
  x ∈ (report_chunk u st).2 → x ∈ st.2 ∨ x = u.
Proof.
  unfold report_chunk. destruct (marked st.1 u); [by left|]. simpl.
  intros [Hx | ->%list_elem_of_singleton]%elem_of_app; auto.
Qed.

Lemma report_chunks_ok (baseURL : URL) (paths : list string)
    (st : gmap string bool * list string) :
  chunks_ok st → chunks_ok (report_chunks baseURL paths st).
Proof.
  unfold report_chunks. revert st.
  induction paths as [|p paths IH]; intros st Hst; [done|].
  simpl. by apply IH, report_chunk_ok.
Qed.

Lemma report_chunks_elem (baseURL : URL) (paths : list string)
    (st : gmap string bool * list string) (x : string) :
  x ∈ (report_chunks baseURL paths st).2 →
  x ∈ st.2 ∨ ∃ p, p ∈ paths ∧ x = resolveScriptURL baseURL (ensureNextPrefix p).
Proof.
  unfold report_chunks. revert st.
  induction paths as [|p paths IH]; intros st Hx; [by left|].
  simpl in Hx. apply IH in Hx as [Hx | (q & Hq & ->)].
  - apply report_chunk_elem in Hx as [Hx | ->]; [by left|].
    right. exists p. split; [apply list_elem_of_here | done].
  - right. exists q. split; [by apply list_elem_of_further | done].
Qed.

(** One call never sends the same string twice. *)
Lemma ProcessWebpackFile_NoDup (webpackURL content : string) :
  NoDup (ProcessWebpackFile webpackURL content).
Proof.
  unfold ProcessWebpackFile. destruct (url_Parse webpackURL) as [baseURL|];
    [|apply NoDup_nil_2].
  do 4 apply report_chunks_ok. split; [apply NoDup_nil_2|]. by intros u ?%elem_of_nil.
Qed.

(** C9. Every URL [ProcessWebpackFile] sends, from whichever of the four
    patterns and whatever the extracted path looks like, is the scheme of
    the bundle's URL, [://], its host, and a path that begins with
    [/_next/]. *)
Theorem chunk_urls_under_next (webpackURL content u : string) :
  u ∈ ProcessWebpackFile webpackURL content →
  ∃ baseURL rest,
    url_Parse webpackURL = Some baseURL ∧
    u = Scheme baseURL +:+ "://" +:+ Host baseURL +:+ "/_next/" +:+ rest.
Proof.
  unfold ProcessWebpackFile. destruct (url_Parse webpackURL) as [baseURL|];
    [|by intros ?%elem_of_nil].
  intros Hu. exists baseURL.
  assert (∃ p, u = resolveScriptURL baseURL (ensureNextPrefix p)) as [p ->].
  { repeat (apply report_chunks_elem in Hu as [Hu | (p & _ & ->)]; [|by exists p]).
    by apply elem_of_nil in Hu. }
  destruct (resolve_ensureNextPrefix baseURL p) as [rest Hrest]. by exists rest.
Qed.

End Bundle.

(** A chunk path that is itself an absolute URL is still put under [/_next/]
    of the bundle's host. *)
Example absolute_chunk_path_is_rooted_too :
  @ProcessWebpackFile Scenario.web Scenario.bundleURL
     ("7===e?" +:+ dq +:+ "https://cdn.ex.org/x.js" +:+ dq)
  = ["https://ex.com/_next/https://cdn.ex.org/x.js"].
Proof. vm_compute. reflexivity. Qed.

Lemma chunk_urls_under_next_witness :
  ∃ baseURL rest,
    @url_Parse Scenario.web Scenario.bundleURL = Some baseURL ∧
    "https://ex.com/_next/https://cdn.ex.org/x.js"
    = Scheme baseURL +:+ "://" +:+ Host baseURL +:+ "/_next/" +:+ rest.
Proof.
  apply (@chunk_urls_under_next Scenario.web Scenario.bundleURL
           ("7===e?" +:+ dq +:+ "https://cdn.ex.org/x.js" +:+ dq)).
  vm_compute. apply list_elem_of_here.
Defined.

(** ** One worker *)

Lemma extends_refl (w : worker) : extends w w.
Proof.
  exists []. split_and!; [by rewrite app_nil_r | apply NoDup_nil_2 | done |].
  by intros x ?%elem_of_nil.
Qed.

Lemma extends_trans (w1 w2 w3 : worker) : extends w1 w2 → extends w2 w3 → extends w1 w3.
Proof.
  intros (n12 & Hr12 & Hnd12 & Hm12 & Hg12) (n23 & Hr23 & Hnd23 & Hm23 & Hg23).
  exists (n12 ++ n23). split_and!.
  - by rewrite Hr23, Hr12, app_assoc.
  - apply NoDup_app. split_and!; [done | | done].
    intros x Hx12 Hx23. apply Hg12 in Hx12 as [_ Ht]. apply Hg23 in Hx23 as [Hf _].
    congruence.
  - auto.
  - intros x [Hx | Hx]%elem_of_app.
    + apply Hg12 in Hx as [? ?]. auto.
    + apply Hg23 in Hx as [Hf ?]. split; [|done].
      destruct (marked (processedURLs w1) (guard x)) eqn:Hg; [|done].
      apply Hm12 in Hg. congruence.
Qed.

Lemma extends_foldl {A} (f : worker → A → worker) (l : list A) (w : worker) :
  (∀ w x, extends w (f w x)) → extends w (foldl f w l).
Proof.
  intros Hf. revert w. induction l as [|x l IH]; intros w; [apply extends_refl|].
  simpl. eapply extends_trans; [apply Hf | apply IH].
Qed.

(** A send guarded by [u], followed by the marking of [u]. *)
Lemma extends_send (w : worker) (x : origin * string) :
  marked (processedURLs w) (guard x) = false →
  extends w (mkWorker (<[guard x := true]> (processedURLs w)) (results w ++ [x])).
Proof.
  intros Hu. exists [x]. split_and!; [done | apply NoDup_singleton | |].
  - intros v. apply marked_insert_mono.
  - intros ? ->%list_elem_of_singleton. split; [done | apply marked_insert_eq].
Qed.

Lemma extends_report (u : string) (w : worker) : extends w (report u w).
Proof.
  unfold report. destruct (marked (processedURLs w) u) eqn:Hu; [apply extends_refl|].
  by apply (extends_send w (FromPage, u)).
Qed.

Lemma extends_mark (u : string) (w : worker) : extends w (mark u w).
Proof.
  exists []. split_and!; [by rewrite app_nil_r | apply NoDup_nil_2 | |].
  - intros v. apply marked_insert_mono.
  - by intros x ?%elem_of_nil.
Qed.

Lemma mark_marked (u : string) (w : worker) :
  marked (processedURLs w) u = true → mark u w = w.
Proof.
  intros Hu. destruct w as [m r]. unfold mark. simpl in *. f_equal.
  apply insert_id. unfold marked in Hu.
  destruct (m !! u) as [[]|]; simpl in Hu; congruence.
Qed.

Section Worker.
Context `{Env}.
Variable opts : Options.

Lemma extends_script_src (parsedURL : URL) (scriptTag : ScriptTag) (w : worker) :
  extends w (script_src opts parsedURL scriptTag w).1.
Proof.
  unfold script_src. destruct (Attr_src scriptTag) as [js|]; [|apply extends_refl].
  destruct (String.eqb js ""); [apply extends_refl|].
  set (resolvedJS := resolveScriptURL parsedURL js).
  destruct (marked (processedURLs w) resolvedJS) eqn:Hm; [apply extends_refl|].
  pose proof (extends_send w (FromPage, resolvedJS) Hm) as Hsend.
  destruct (isWebpackBundle resolvedJS); [|done].
  destruct (http_get opts resolvedJS) as [webpackBody|]; [|done].
  simpl. exists ((FromPage, resolvedJS)
                 :: map (pair (FromBundle resolvedJS))
                        (ProcessWebpackFile resolvedJS webpackBody)).
  split_and!.
  - by rewrite <- app_assoc.
  - apply NoDup_cons. split.
    + by intros (? & ? & _)%list_elem_of_fmap.
    + apply NoDup_fmap_2; [by intros ?? [= ->] | apply ProcessWebpackFile_NoDup].
  - intros v. apply marked_insert_mono.
  - intros x [-> | (c & -> & _)%list_elem_of_fmap]%elem_of_cons;
      (split; [done | apply marked_insert_eq]).
Qed.

Lemma extends_script_text (parsedURL : URL) (text : string) (w : worker) :
  extends w (script_text parsedURL text w).
Proof.
  apply extends_foldl. intros w' js. unfold script_text_ref.
  repeat case_match; apply extends_report || apply extends_refl.
Qed.

Lemma extends_each_script (parsedURL : URL) (w : worker) (scriptTag : ScriptTag) :
  extends w (each_script opts parsedURL w scriptTag).
Proof.
  unfold each_script. pose proof (extends_script_src parsedURL scriptTag w) as Hsrc.
  destruct (script_src opts parsedURL scriptTag w) as [w1 [|]]; [|done].
  eapply extends_trans; [exact Hsrc | apply extends_script_text].
Qed.

Lemma extends_each_div (parsedURL : URL) (w : worker) (divTag : DivTag) :
  extends w (each_div parsedURL w divTag).
Proof.
  unfold each_div. repeat case_match; apply extends_report || apply extends_refl.
Qed.

(** What a worker does with [u] comes after the marking of [u]. *)
Lemma extends_fetch_url (w : worker) (u : string) : extends (mark u w) (fetch_url opts w u).
Proof.
  unfold fetch_url. destruct (marked (processedURLs w) u) eqn:Hu.
  { rewrite mark_marked by done. apply extends_refl. }
  fold (mark u w). repeat case_match; try apply extends_refl.
  eapply extends_trans; [|apply extends_foldl, extends_each_div].
  apply extends_foldl, extends_each_script.
Qed.

Lemma extends_fetch_url' (w : worker) (u : string) : extends w (fetch_url opts w u).
Proof. eapply extends_trans; [apply extends_mark | apply extends_fetch_url]. Qed.

Lemma fetch_snoc (urls : list string) (u : string) :
  fetch opts (urls ++ [u]) = fetch_url opts (fetch opts urls) u.
Proof. unfold fetch. by rewrite foldl_app. Qed.

Lemma fetch_app (pre post : list string) :
  fetch opts (pre ++ post) = foldl (fetch_url opts) (fetch opts pre) post.
Proof. unfold fetch. by rewrite foldl_app. Qed.

(** Every seed a worker has pulled is marked. *)
Lemma fetch_marks_seeds (urls : list string) (s : string) :
  s ∈ urls → marked (processedURLs (fetch opts urls)) s = true.
Proof.
  induction urls as [|u urls IH] using rev_ind; [by intros ?%elem_of_nil|].
  rewrite fetch_snoc. destruct (extends_fetch_url (fetch opts urls) u) as (_ & _ & _ & Hm & _).
  intros [Hs | ->%list_elem_of_singleton]%elem_of_app; apply Hm; simpl.
  - by apply marked_insert_mono, IH.
  - apply marked_insert_eq.
Qed.

End Worker.

Lemma sent_from_NoDup (o : origin) (w : worker) :
  NoDup (results w) → NoDup (sent_from o w).
Proof.
  intros Hnd. unfold sent_from. apply NoDup_fmap_2_strong; [|by apply NoDup_filter].
  intros [o1 u1] [o2 u2] [H1 _]%list_elem_of_filter [H2 _]%list_elem_of_filter Hu.
  simpl in *. congruence.
Qed.

(** Reporting a list of URLs: each is marked afterwards, each is among the
    new sends exactly when it was not marked before, and nothing else is
    sent. *)
Lemma report_all (us : list string) (w : worker) :
  let w' := foldl (λ w u, report u w) w us in
  ∃ new,
    results w' = results w ++ new ∧
    (∀ u, u ∈ us → marked (processedURLs w') u = true
                   ∧ ((FromPage, u) ∈ new ↔ marked (processedURLs w) u = false)) ∧
    (∀ x, x ∈ new → ∃ u, u ∈ us ∧ x = (FromPage, u)).
Proof.
  simpl. assert (extends w (foldl (λ w u, report u w) w us)) as (new & Hr & _ & Hm & Hg).
  { apply extends_foldl. intros. apply extends_report. }
  exists new. split; [done|]. revert w new Hr Hm Hg.
  induction us as [|u us IH]; intros w new Hr Hm Hg.
  { simpl in Hr. assert (new = []) as ->.
    { apply (app_inv_head (results w)). by rewrite <- Hr, app_nil_r. }
    split; [by intros ? ?%elem_of_nil | by intros ? ?%elem_of_nil]. }
  simpl in *.
  destruct (extends_report u w) as (n1 & Hr1 & _ & Hm1 & Hg1).
  destruct (extends_foldl (λ w u, report u w) us (report u w))
    as (n2 & Hr2 & _ & Hm2 & Hg2); [intros; apply extends_report|].
  assert (new = n1 ++ n2) as ->.
  { apply (app_inv_head (results w)). by rewrite <- Hr, Hr2, Hr1, app_assoc. }
  destruct (IH (report u w) n2 Hr2 Hm2 Hg2) as [IHm IHs].
  assert (marked (processedURLs (report u w)) u = true) as Hu.
  { unfold report. destruct (marked (processedURLs w) u) eqn:E; [done|].
    apply marked_insert_eq. }
  assert (marked (processedURLs w) u = false → (FromPage, u) ∈ n1) as Hsent.
  { intros E. unfold report in Hr1. rewrite E in Hr1. simpl in Hr1.
    apply app_inv_head in Hr1 as <-. apply list_elem_of_here. }
  assert (∀ x, x ∈ n1 → x = (FromPage, u)) as Hn1.
  { intros x Hx. unfold report in Hr1.
    destruct (marked (processedURLs w) u) eqn:E; simpl in Hr1.
    - assert (n1 = []) as ->; [|by apply elem_of_nil in Hx].
      apply (app_inv_head (results w)). by rewrite <- Hr1, app_nil_r.
    - apply app_inv_head in Hr1 as <-. by apply list_elem_of_singleton in Hx. }
  split.
  - intros v [-> | Hv]%elem_of_cons.
    + split; [by apply Hm2|]. split.
      * intros Hin. by apply (Hg (FromPage, u)).
      * intros E. apply elem_of_app. left. auto.
    + destruct (IHm v Hv) as [Hv' Hiff]. split; [done|]. split.
      * intros Hin. by apply (Hg (FromPage, v)).
      * intros E. apply elem_of_app.
        destruct (marked (processedURLs (report u w)) v) eqn:E'.
        -- left. unfold report in E'.
           destruct (marked (processedURLs w) u) eqn:Eu; [congruence|].
           simpl in E'. apply marked_insert_inv in E' as [-> | ?]; [auto | congruence].
        -- right. by apply Hiff.
  - intros x [Hx | Hx]%elem_of_app.
    + exists u. split; [apply list_elem_of_here | auto].
    + destruct (IHs x Hx) as (v & Hv & ->). exists v.
      split; [by apply list_elem_of_further | done].
Qed.

Section WorkerProperties.
Context `{Env}.
Variable opts : Options.

(** C1, as the code has it.  In the run of a worker, no URL is sent twice
    by the page extraction (script [src], script text, [data-script-src]),
    and no URL is sent twice from the same bundle. *)
Theorem worker_sends_once_per_origin (urls : list string) (o : origin) :
  NoDup (sent_from o (fetch opts urls)).
Proof.
  apply sent_from_NoDup.
  assert (extends (mkWorker ∅ []) (fetch opts urls)) as (new & Hr & Hnd & _).
  { apply extends_foldl. intros. apply extends_fetch_url'. }
  by rewrite Hr.
Qed.

(** C10, as the code has it.  Once a worker has pulled the seeds [pre] and
    [u], nothing it sends from the extraction of a page, while it processes
    [u] or later, equals one of them. *)
Theorem page_extraction_never_sends_a_pulled_seed (pre post : list string) (u : string) :
  ∃ new,
    results (fetch opts (pre ++ u :: post)) = results (fetch opts pre) ++ new ∧
    ∀ s, s ∈ pre ++ [u] → (FromPage, s) ∉ new.
Proof.
  rewrite fetch_app. simpl.
  assert (extends (mark u (fetch opts pre))
                  (foldl (fetch_url opts) (fetch_url opts (fetch opts pre) u) post))
    as (new & Hr & _ & _ & Hg).
  { eapply extends_trans; [apply extends_fetch_url|].
    apply extends_foldl. intros. apply extends_fetch_url'. }
  exists new. split; [done|].
  intros s Hs Hin. apply Hg in Hin as [Hf _]. unfold guard in Hf. simpl in Hf.
  apply elem_of_app in Hs as [Hs | ->%list_elem_of_singleton].
  - apply (fetch_marks_seeds opts) in Hs.
    apply (marked_insert_mono _ u) in Hs. congruence.
  - rewrite marked_insert_eq in Hf. congruence.
Qed.


End WorkerProperties.

(** C1, as the specification has it, fails.  The page loads two bundles and
    both contain the chunk reference [123-xyz]: the worker sends the chunk's
    URL once for each bundle. *)
Lemma worker_sends_chunk_twice :
  lines (@fetch Scenario.web2 Scenario.opts [Scenario.seed])
  = [Scenario.bundleURL; Scenario.chunkURL; Scenario.mainURL; Scenario.chunkURL]
  ∧ ¬ NoDup (lines (@fetch Scenario.web2 Scenario.opts [Scenario.seed])).
Proof.
  assert (lines (@fetch Scenario.web2 Scenario.opts [Scenario.seed])
          = [Scenario.bundleURL; Scenario.chunkURL; Scenario.mainURL; Scenario.chunkURL])
    as Heq by (vm_compute; reflexivity).
  split; [done|]. rewrite Heq. intros Hnd.
  apply NoDup_cons in Hnd as [_ Hnd]. apply NoDup_cons in Hnd as [Hnotin _].
  apply Hnotin. apply list_elem_of_further, list_elem_of_here.
Qed.

(** C10, as the specification has it, fails.  The worker pulls the seed
    [.../123-xyz.js] first, which sends nothing, then the page [https://ex.com/],
    whose bundle names that chunk: the URL of the first seed is sent. *)
Lemma worker_sends_a_pulled_seed :
  lines (@fetch Scenario.web Scenario.opts [Scenario.chunkURL]) = []
  ∧ lines (@fetch Scenario.web Scenario.opts [Scenario.chunkURL; Scenario.seed])
    = [Scenario.bundleURL; Scenario.chunkURL].
Proof. split; vm_compute; reflexivity. Qed.

Lemma page_extraction_never_sends_a_pulled_seed_witness :
  ∃ new,
    results (@fetch Scenario.web Scenario.opts ([Scenario.chunkURL] ++ [Scenario.seed]))
    = results (@fetch Scenario.web Scenario.opts [Scenario.chunkURL]) ++ new
    ∧ (FromPage, Scenario.chunkURL) ∉ new.
Proof.
  destruct (@page_extraction_never_sends_a_pulled_seed Scenario.web Scenario.opts
              [Scenario.chunkURL] [] Scenario.seed) as (new & Hr & Hnew).
  exists new. split; [exact Hr|]. apply Hnew.
  apply elem_of_app. left. apply list_elem_of_here.
Defined.


(** ** The end-to-end scenario *)

Section EndToEnd.
Context `{Env}.
Variable opts : Options.
Import Scenario(seed, bundleURL, chunkURL, bundleBody, page).

(** C2. The seed page is at [https://ex.com/], its HTML has the one script
    element with [src="/_next/static/chunks/webpack-abc.js"], and the bundle
    fetched there is [123===e?] followed by the quoted path
    [static/chunks/123-xyz.js]: the worker sends exactly the bundle's URL
    and then [https://ex.com/_next/static/chunks/123-xyz.js]. *)
Theorem webpack_scenario (html : string) :
  http_get opts seed = Some html →
  goquery_NewDocumentFromReader html = Some page →
  url_Parse seed = Some (mkURL "https" "ex.com" "/") →
  http_get opts bundleURL = Some bundleBody →
  url_Parse bundleURL = Some (mkURL "https" "ex.com" "/_next/static/chunks/webpack-abc.js") →
  lines (fetch opts [seed])
  = ["https://ex.com/_next/static/chunks/webpack-abc.js";
     "https://ex.com/_next/static/chunks/123-xyz.js"].
Proof.
  intros Hget Hdoc Hparse Hbundle Hbase.
  unfold fetch. cbn [foldl]. unfold fetch_url.
  rewrite marked_empty, Hget, Hdoc, Hparse. cbn [processedURLs results].
  unfold page. cbn [Find_script Find_div foldl].
  unfold each_script, script_src. cbn [Attr_src Contents_Text processedURLs results].
  change (resolveScriptURL (mkURL "https" "ex.com" "/") "/_next/static/chunks/webpack-abc.js")
    with bundleURL.
  rewrite Hbundle. unfold ProcessWebpackFile. rewrite Hbase.
  vm_compute. reflexivity.
Qed.

End EndToEnd.

Lemma webpack_scenario_witness :
  lines (@fetch Scenario.web Scenario.opts [Scenario.seed])
  = ["https://ex.com/_next/static/chunks/webpack-abc.js";
     "https://ex.com/_next/static/chunks/123-xyz.js"].
Proof.
  apply (@webpack_scenario Scenario.web Scenario.opts "<html>"); reflexivity.
Defined.

(** ** Pattern 2 *)

Lemma length_append (a b : string) :
  String.length (a +:+ b) = String.length a + String.length b.
Proof. induction a as [|x a IH]; [done|]. rewrite append_cons. simpl. by rewrite IH. Qed.

Lemma substring_append (a b : string) : String.substring 0 (String.length a) (a +:+ b) = a.
Proof.
  induction a as [|x a IH]; [by destruct b|]. rewrite append_cons. simpl. by rewrite IH.
Qed.

Lemma strip_inv (l s rest : string) : regexp.strip l s = Some rest → s = l +:+ rest.
Proof.
  revert s. induction l as [|a l IH]; intros s Hs; simpl in Hs; [by injection Hs as ->|].
  destruct s as [|b s]; [done|].
  destruct (Ascii.eqb_spec a b) as [->|]; [|done].
  rewrite append_cons. f_equal. by apply IH.
Qed.

(** A literal captures itself. *)
Lemma strip_consumed (l s rest : string) :
  regexp.strip l s = Some rest → regexp.consumed s rest = l.
Proof.
  intros ->%strip_inv. unfold regexp.consumed. rewrite length_append.
  replace (String.length l + String.length rest - String.length rest)
    with (String.length l) by lia.
  apply substring_append.
Qed.

Lemma star_some {A} (cls : ascii → bool) (s : string) (k : string → option A) (x : A) :
  regexp.star cls s k = Some x → ∃ rest, k rest = Some x.
Proof.
  induction s as [|c t IH]; simpl; [by exists ""|].
  destruct (cls c); [|by exists (String c t)].
  destruct (regexp.star cls t k) eqn:Hstar; [|by exists (String c t)].
  intros [= ->]. by apply IH.
Qed.

Lemma FindStringSubmatch_inv (r : regexp.regex) (s : string) :
  regexp.FindStringSubmatch r s = []
  ∨ ∃ s', regexp.match_here r s' = Some (regexp.FindStringSubmatch r s).
Proof.
  induction s as [|c t IH]; simpl.
  - destruct (regexp.match_here r "") eqn:Hm; [right; by exists "" | by left].
  - destruct (regexp.match_here r (String c t)) eqn:Hm; [right; by exists (String c t) | done].
Qed.

(** A match of the pattern of pattern 2 has three groups, and the first one
    is [static/chunks/]. *)
Lemma complexPattern_shape (s : string) (m : list string) :
  regexp.match_here pat.complexPattern s = Some m →
  ∃ whole idMapStr hashMapStr, m = [whole; "static/chunks/"; idMapStr; hashMapStr].
Proof.
  unfold regexp.match_here, pat.complexPattern. cbn [regexp.seq regexp.rmatch].
  destruct (regexp.strip dq s) as [s1|] eqn:H1; [|done].
  destruct (regexp.strip "static/chunks/" s1) as [s2|] eqn:H2; [|done].
  destruct (regexp.strip _ s2) as [s3|] eqn:H3; [|done].
  destruct s3 as [|c3 t3]; [done|]. destruct (regexp.other_than _ c3); [|done].
  intros [s4 Hm]%star_some.
  destruct (regexp.strip _ s4) as [s5|] eqn:H5; [|done].
  destruct s5 as [|c5 t5]; [done|]. destruct (regexp.other_than _ c5); [|done].
  apply star_some in Hm as [s6 Hm].
  destruct (regexp.strip _ s6) as [s7|] eqn:H7; [|done].
  injection Hm as <-. rewrite (strip_consumed _ _ _ H2). simpl. eauto.
Qed.

Section Pattern2.
Context `{Env}.

(** C3. In pattern 2, each entry [id : hash] of the parsed hash map gives
    the path [static/chunks/<name>.<hash>.js], where the name is the value
    of the id map for [id] when it has one and [id] itself otherwise; no
    other path is given.  With the id map [1 : a] and the hash map
    [1 : h1, 2 : h2] the paths are [static/chunks/a.h1.js] and
    [static/chunks/2.h2.js]. *)
Theorem complex_paths (content : string) :
  let complexMatches := regexp.FindStringSubmatch pat.complexPattern content in
  let idMap := parseJSMap (sub complexMatches 2) in
  let hashMap := parseJSMap (sub complexMatches 3) in
  range_visits_each_entry_once →
  complexMatches ≠ [] →
  complexPaths content
    ≡ₚ map (λ '(id, hash),
              "static/chunks/" +:+ default id (idMap !! id) +:+ "." +:+ hash +:+ ".js")
           (map_to_list hashMap)
  ∧ (idMap = {["1" := "a"]} → hashMap = <["2" := "h2"]> {["1" := "h1"]} →
     complexPaths content ≡ₚ ["static/chunks/a.h1.js"; "static/chunks/2.h2.js"]).
Proof.
  intros complexMatches idMap hashMap Hrange Hne.
  assert (complexPaths content
          ≡ₚ map (λ '(id, hash),
                    "static/chunks/" +:+ default id (idMap !! id) +:+ "." +:+ hash +:+ ".js")
                 (map_to_list hashMap)) as Hgen.
  { unfold complexPaths. fold complexMatches.
    destruct (FindStringSubmatch_inv pat.complexPattern content) as [Hnil | [s' Hm]];
      [done|].
    apply complexPattern_shape in Hm as (whole & ids & hashes & Hm).
    fold complexMatches in Hm. subst idMap hashMap. rewrite Hm.
    cbn [length Nat.ltb Nat.leb sub nth]. rewrite (Hrange (parseJSMap hashes)).
    apply reflexive_eq. apply map_ext. intros [id hash].
    by destruct (parseJSMap ids !! id). }
  split; [done|]. intros HidMap HhashMap. rewrite Hgen, HidMap, HhashMap.
  vm_compute. reflexivity.
Qed.

End Pattern2.

Lemma complex_paths_witness :
  @complexPaths Scenario.web Pattern2Example.content
  ≡ₚ ["static/chunks/a.h1.js"; "static/chunks/2.h2.js"].
Proof.
  apply (@complex_paths Scenario.web Pattern2Example.content).
  - intros m. reflexivity.
  - vm_compute. discriminate.
  - vm_compute. reflexivity.
  - vm_compute. reflexivity.
Defined.

(** ** The dispatcher *)

Section Dispatcher.
Context `{Env}.
Variable opts : Options.

(** A seed that fails is marked and nothing is sent for it. *)
Lemma fetch_url_failure (w : worker) (u : string) :
  url_failure opts u → fetch_url opts w u = mark u w.
Proof.
  intros Hfail. unfold fetch_url.
  destruct (marked (processedURLs w) u) eqn:Hm; [by rewrite mark_marked|].
  fold (mark u w).
  destruct Hfail as [Hreq | req Hreq Hdo | req resp Hreq Hdo Hread | body Hget Hdoc | Hparse].
  - unfold http_get. by rewrite Hreq.
  - unfold http_get. rewrite Hreq. simpl. by rewrite Hdo.
  - unfold http_get. rewrite Hreq. simpl. rewrite Hdo. simpl. by rewrite Hread.
  - by rewrite Hget, Hdoc.
  - rewrite Hparse. by repeat case_match.
Qed.

(** C4. [Run] returns an error exactly when an input file is configured
    and cannot be opened.  Otherwise, with at least one worker, it returns
    nil whatever fails on the way, and the workers have sent what they
    found: a URL whose request, transport, body, HTML or URL parse fails
    sends nothing and the worker goes on with the seeds that follow. *)
Theorem run_fails_only_on_input :
  ((∃ err, Run opts = ReturnsError err)
   ↔ InputFile opts ≠ "" ∧ ∃ err, os_Open (InputFile opts) = inr err)
  ∧ ((1 ≤ Workers opts)%Z → ∀ scanned,
       (if String.eqb (InputFile opts) "" then inl os_Stdin else os_Open (InputFile opts))
       = inl scanned →
       let n := Z.to_nat (Workers opts) in
       let seeds := filter (λ u, u ≠ "") scanned in
       Run opts = ReturnsNil (map (λ i, lines (fetch opts (received n i seeds))) (seq 0 n)))
  ∧ (∀ pre post u,
       url_failure opts u →
       lines (fetch opts (pre ++ u :: post))
       = lines (foldl (fetch_url opts) (mark u (fetch opts pre)) post)
       ∧ lines (fetch opts (pre ++ [u])) = lines (fetch opts pre)).
Proof.
  split_and!.
  - unfold Run. destruct (String.eqb_spec (InputFile opts) "") as [Hstdin | Hfile].
    + split.
      * intros [err Herr]. by repeat case_match.
      * by intros [? _].
    + destruct (os_Open (InputFile opts)) as [scanned | e] eqn:Hopen.
      * split.
        -- intros [err Herr]. by repeat case_match.
        -- by intros [_ [err ?]].
      * split; [|by eexists]. intros _. split; [done | by eexists].
  - intros Hworkers scanned Hinput n seeds. unfold Run. rewrite Hinput. fold n seeds.
    destruct n eqn:Hn; [lia | done].
  - intros pre post u Hfail.
    pose proof (fetch_url_failure (fetch opts pre) u Hfail) as Hw.
    split.
    + by rewrite fetch_app; cbn [foldl]; rewrite Hw.
    + by rewrite fetch_snoc, Hw.
Qed.

End Dispatcher.

Lemma run_fails_only_on_input_witness :
  @Run Scenario.web Scenario.opts
  = ReturnsNil [[Scenario.bundleURL; Scenario.chunkURL]].
Proof.
  destruct (@run_fails_only_on_input Scenario.web Scenario.opts) as (_ & Hnil & _).
  rewrite (Hnil ltac:(vm_compute; discriminate) [Scenario.chunkURL; Scenario.seed]);
    [|reflexivity].
  vm_compute. reflexivity.
Defined.

(** * Further properties of the resolver *)

Lemma prefix_nil (s : string) : String.prefix "" s = true.
Proof. by destruct s. Qed.

Lemma Contains_append_l (a b sub : string) :
  strings.Contains b sub = true → strings.Contains (a +:+ b) sub = true.
Proof.
  intros Hb. induction a as [|x a IH]; [done|].
  rewrite append_cons. simpl. rewrite IH. apply orb_true_r.
Qed.

Lemma prefix_escape (sub s : string) (mode : url.encoding) :
  strings.forallb (λ c, negb (url.shouldEscape c mode)) sub = true →
  String.prefix sub s = true →
  String.prefix sub (url.escape s mode) = true.
Proof.
  revert s. induction sub as [|a sub IH]; intros s Hok Hp; [apply prefix_nil|].
  destruct s as [|b s]; [done|]. simpl in Hp, Hok.
  apply andb_prop in Hok as [Ha Hsub].
  destruct (ascii_dec a b) as [<-|]; [|done].
  simpl. destruct (url.shouldEscape a mode); [done|]. simpl.
  destruct (ascii_dec a a); [by apply IH | done].
Qed.

Lemma Contains_escape (sub s : string) (mode : url.encoding) :
  strings.forallb (λ c, negb (url.shouldEscape c mode)) sub = true →
  strings.Contains s sub = true →
  strings.Contains (url.escape s mode) sub = true.
Proof.
  intros Hok. induction s as [|c s IH]; intros Hc.
  - exact Hc.
  - simpl in Hc. apply orb_prop in Hc as [Hp | Hc].
    + pose proof (prefix_escape sub (String c s) mode Hok Hp) as Hp'.
      destruct (url.escape (String c s) mode); cbn [strings.Contains]; by rewrite Hp'.
    + specialize (IH Hc). simpl. destruct (url.shouldEscape c mode).
      * apply (Contains_append_l (String "%"%char
                 (String (url.upperhex (N.shiftr (N_of_ascii c) 4))
                    (String (url.upperhex (N.land (N_of_ascii c) 15)) ""))) _ sub IH).
      * apply (Contains_append_l (String c "") _ sub IH).
Qed.

Lemma rooted_inv (path : string) : ∃ rest, rooted path = "/" +:+ rest.
Proof. apply HasPrefix_inv, rooted_HasPrefix. Qed.

Lemma Contains_rooted (path sub : string) :
  strings.Contains path sub = true → strings.Contains (rooted path) sub = true.
Proof.
  intros Hc. unfold rooted. destruct (strings.HasPrefix path "/"); [done|].
  by apply Contains_append_l.
Qed.

(** The text of a URL ends with its escaped path. *)
Lemma String_ends_with_path (u : URL) : ∃ buf, url.String u = buf +:+ url.EscapedPath u.
Proof. unfold url.String. eexists. reflexivity. Qed.

Lemma Contains_resolve (baseURL : URL) (path sub : string) :
  strings.forallb (λ c, negb (url.shouldEscape c url.encodePath)) sub = true →
  strings.Contains path sub = true →
  strings.Contains (resolveScriptURL baseURL path) sub = true.
Proof.
  intros Hok Hc. unfold resolveScriptURL.
  destruct (strings.HasPrefix path "http://" || strings.HasPrefix path "https://"); [done|].
  destruct (strings.HasPrefix path "//").
  { rewrite <- append_assoc. by apply Contains_append_l. }
  destruct (strings.HasPrefix path "/_next/" || strings.HasPrefix path "_next/").
  { rewrite <- !append_assoc. apply Contains_append_l.
    destruct (strings.HasPrefix path "/"); [done|]. by apply Contains_append_l. }
  cbv zeta.
  replace (if negb (strings.HasPrefix path "/") then "/" +:+ path else path)
    with (rooted path) by (unfold rooted; by destruct (strings.HasPrefix path "/")).
  destruct (String_ends_with_path (mkURL (Scheme baseURL) (Host baseURL) (rooted path)))
    as [buf ->].
  apply Contains_append_l. unfold url.EscapedPath. cbn [Path].
  destruct (rooted_inv path) as [rest Hrest].
  replace (String.eqb (rooted path) "*") with false by (by rewrite Hrest).
  by apply Contains_escape, Contains_rooted.
Qed.

(** X1. A path that begins with [/_next/] or [_next/] resolves to the base's
    scheme, [://], the base's host and the path, with a leading slash added
    when it lacks one; nothing is escaped. *)
Theorem resolve_next_path (baseURL : URL) (path : string) :
  strings.HasPrefix path "/_next/" = true ∨ strings.HasPrefix path "_next/" = true →
  resolveScriptURL baseURL path
  = Scheme baseURL +:+ "://" +:+ Host baseURL +:+ rooted path.
Proof.
  intros [[rest ->]%HasPrefix_inv | [rest ->]%HasPrefix_inv].
  - rewrite resolve_next_rooted. unfold rooted.
    by rewrite (HasPrefix_append "/" ("_next/" +:+ rest) : strings.HasPrefix ("/_next/" +:+ rest) "/" = true).
  - by rewrite resolve_next_unrooted.
Qed.

Lemma resolve_next_path_witness :
  resolveScriptURL (mkURL "https" "ex.com" "/shop/cart") "_next/static/a b.js"
  = "https" +:+ "://" +:+ "ex.com" +:+ rooted "_next/static/a b.js".
Proof. apply resolve_next_path. right. reflexivity. Defined.

(** X2. With a base whose scheme is not empty, a path that is not already
    absolute resolves to a URL in the base's scheme: the result begins with
    the scheme and a colon. *)
Theorem resolve_keeps_scheme (baseURL : URL) (path : string) :
  Scheme baseURL ≠ "" →
  strings.HasPrefix path "http://" = false →
  strings.HasPrefix path "https://" = false →
  ∃ rest, resolveScriptURL baseURL path = Scheme baseURL +:+ ":" +:+ rest.
Proof.
  intros Hs H1 H2. unfold resolveScriptURL. rewrite H1, H2. cbn [orb].
  destruct (strings.HasPrefix path "//"); [by eexists|].
  destruct (strings.HasPrefix path "/_next/" || strings.HasPrefix path "_next/").
  { eexists. by rewrite <- (append_assoc ":" "//"). }
  cbv zeta.
  replace (if negb (strings.HasPrefix path "/") then "/" +:+ path else path)
    with (rooted path) by (unfold rooted; by destruct (strings.HasPrefix path "/")).
  rewrite String_rooted; [|done | apply rooted_HasPrefix].
  eexists. by rewrite <- (append_assoc ":" "//").
Qed.

Lemma resolve_keeps_scheme_witness :
  ∃ rest, resolveScriptURL (mkURL "https" "ex.com" "/") "js/app.js?v=2"
          = "https" +:+ ":" +:+ rest.
Proof.
  apply (resolve_keeps_scheme (mkURL "https" "ex.com" "/") "js/app.js?v=2");
    reflexivity || discriminate.
Defined.

(** X3. [ensureNextPrefix] is idempotent, leaves a path that is already
    under [/_next/] or [_next/] unchanged, and its result always begins with
    one of the two. *)
Theorem ensureNextPrefix_idempotent (path : string) :
  ensureNextPrefix (ensureNextPrefix path) = ensureNextPrefix path
  ∧ (strings.HasPrefix path "/_next/" || strings.HasPrefix path "_next/" = true →
     ensureNextPrefix path = path)
  ∧ strings.HasPrefix (ensureNextPrefix path) "/_next/"
    || strings.HasPrefix (ensureNextPrefix path) "_next/" = true.
Proof.
  assert (∀ p, strings.HasPrefix p "/_next/" || strings.HasPrefix p "_next/" = true →
               ensureNextPrefix p = p) as Hfix.
  { intros p Hp. unfold ensureNextPrefix. rewrite <- negb_orb, Hp. done. }
  assert (strings.HasPrefix (ensureNextPrefix path) "/_next/"
          || strings.HasPrefix (ensureNextPrefix path) "_next/" = true) as Hshape.
  { destruct (ensureNextPrefix_shape path) as [rest [-> | ->]].
    - by rewrite HasPrefix_append.
    - rewrite HasPrefix_append. apply orb_true_r. }
  split_and!; [by apply Hfix | apply Hfix | done].
Qed.

Lemma ensureNextPrefix_idempotent_witness :
  ensureNextPrefix "_next/static/chunks/1.js" = "_next/static/chunks/1.js".
Proof.
  apply (ensureNextPrefix_idempotent "_next/static/chunks/1.js"). reflexivity.
Defined.

(** X4. Resolution never hides a bundle: when the path of a script passes
    the bundle test, so does the URL it resolves to, whatever the base. *)
Theorem isWebpackBundle_resolve (baseURL : URL) (path : string) :
  isWebpackBundle path = true →
  isWebpackBundle (resolveScriptURL baseURL path) = true.
Proof.
  unfold isWebpackBundle. intros Hb.
  repeat apply orb_prop in Hb as [Hb | Hb].
  - by rewrite Contains_resolve.
  - rewrite (Contains_resolve _ _ "bundle"); [|done..]. by rewrite orb_true_r.
  - rewrite (Contains_resolve _ _ "chunks"); [|done..]. by rewrite !orb_true_r.
  - rewrite (Contains_resolve _ _ "_next/static"); [|done..]. by rewrite !orb_true_r.
Qed.

Lemma isWebpackBundle_resolve_witness :
  isWebpackBundle (resolveScriptURL (mkURL "https" "ex.com" "/") "js/app bundle.js?v=1") = true.
Proof. apply isWebpackBundle_resolve. reflexivity. Defined.

(** * Further properties of the patterns *)

Lemma consumed_append (a b : string) : regexp.consumed (a +:+ b) b = a.
Proof.
  unfold regexp.consumed. rewrite length_append.
  replace (String.length a + String.length b - String.length b)
    with (String.length a) by lia.
  apply substring_append.
Qed.

(** What a greedy repetition took is in the class. *)
Lemma star_inv {A} (cls : ascii → bool) (s : string) (k : string → option A) (x : A) :
  regexp.star cls s k = Some x →
  ∃ taken rest, s = taken +:+ rest ∧ strings.forallb cls taken = true ∧ k rest = Some x.
Proof.
  induction s as [|c t IH]; simpl.
  { intros Hk. by exists "", "". }
  destruct (cls c) eqn:Hc; [|intros Hk; by exists "", (String c t)].
  destruct (regexp.star cls t k) as [y|] eqn:Hstar.
  - intros [= ->]. destruct (IH eq_refl) as (taken & rest & -> & Htaken & Hk).
    exists (String c taken), rest. split_and!; [done | | done].
    simpl. by rewrite Hc.
  - intros Hk. by exists "", (String c t).
Qed.

Lemma plus_inv {A} (cls : ascii → bool) (s : string) (caps : list string)
    (k : string → list string → option A) (x : A) :
  regexp.rmatch (regexp.Group (regexp.Plus cls)) s caps k = Some x →
  ∃ taken rest, s = taken +:+ rest ∧ taken ≠ "" ∧ strings.forallb cls taken = true
                ∧ k rest (caps ++ [taken]) = Some x.
Proof.
  cbn [regexp.rmatch]. destruct s as [|c t]; [done|].
  destruct (cls c) eqn:Hc; [|done].
  intros (taken & rest & -> & Htaken & Hk)%star_inv.
  exists (String c taken), rest. split_and!; [done | done | by simpl; rewrite Hc |].
  by rewrite <- (consumed_append (String c taken) rest).
Qed.

Lemma find_all_inv (r : regexp.regex) (s : string) (skip : nat) (m : list string) :
  m ∈ regexp.find_all r s skip → ∃ s', regexp.match_here r s' = Some m.
Proof.
  revert skip. induction s as [|c t IH]; intros skip.
  - destruct skip; simpl; [|by intros ?%elem_of_nil].
    destruct (regexp.match_here r "") eqn:Hm; [|by intros ?%elem_of_nil].
    intros [-> | ?%elem_of_nil]%elem_of_cons; [by exists "" | done].
  - destruct skip; simpl; [|apply IH].
    destruct (regexp.match_here r (String c t)) eqn:Hm; [|apply IH].
    intros [-> | Hin]%elem_of_cons; [by exists (String c t) | by eapply IH].
Qed.

Lemma rmatch_seq {A} (r1 r2 : regexp.regex) (s : string) (caps : list string)
    (k : string → list string → option A) :
  regexp.rmatch (regexp.Seq r1 r2) s caps k
  = regexp.rmatch r1 s caps (λ rest caps', regexp.rmatch r2 rest caps' k).
Proof. reflexivity. Qed.

Lemma rmatch_lit {A} (l s : string) (caps : list string)
    (k : string → list string → option A) (x : A) :
  regexp.rmatch (regexp.Lit l) s caps k = Some x →
  ∃ rest, s = l +:+ rest ∧ k rest caps = Some x.
Proof.
  cbn [regexp.rmatch]. destruct (regexp.strip l s) as [rest|] eqn:Hl; [|done].
  apply strip_inv in Hl as ->. by exists rest.
Qed.

(** The matches of a pattern of the form [(c1+) l (c2+) l2], which both
    [directChunkPattern] and [pairPattern] are. *)
Lemma two_groups_shape (c1 c2 : ascii → bool) (l l2 s : string) (m : list string) :
  regexp.match_here
    (regexp.seq [regexp.Group (regexp.Plus c1); regexp.Lit l;
                 regexp.Group (regexp.Plus c2); regexp.Lit l2]) s = Some m →
  ∃ g1 g2, m = [g1 +:+ l +:+ g2 +:+ l2; g1; g2]
           ∧ g1 ≠ "" ∧ strings.forallb c1 g1 = true
           ∧ g2 ≠ "" ∧ strings.forallb c2 g2 = true.
Proof.
  unfold regexp.match_here. cbn [regexp.seq]. rewrite rmatch_seq. intros Hm.
  apply plus_inv in Hm as (g1 & r1 & -> & Hg1 & Hc1 & Hm).
  rewrite rmatch_seq in Hm. apply rmatch_lit in Hm as (r2 & -> & Hm).
  rewrite rmatch_seq in Hm. apply plus_inv in Hm as (g2 & r3 & -> & Hg2 & Hc2 & Hm).
  apply rmatch_lit in Hm as (r4 & -> & Hm).
  injection Hm as <-. exists g1, g2. split_and!; try done.
  replace (g1 +:+ l +:+ g2 +:+ l2 +:+ r4) with ((g1 +:+ l +:+ g2 +:+ l2) +:+ r4)
    by (by rewrite !append_assoc).
  by rewrite consumed_append.
Qed.

Lemma publicPathPattern_shape (s : string) (m : list string) :
  regexp.match_here pat.publicPathPattern s = Some m →
  ∃ whole stem, m = [whole; stem +:+ ".js"] ∧ stem ≠ ""
                ∧ strings.forallb (regexp.other_than pat.quote) stem = true.
Proof.
  unfold regexp.match_here, pat.publicPathPattern. cbn [regexp.seq]. cbn [regexp.rmatch].
  destruct (regexp.strip _ s) as [r1|] eqn:H1; [|done].
  destruct r1 as [|c t]; [done|].
  destruct (regexp.other_than pat.quote c) eqn:Hc; [|done].
  intros (taken & r2 & -> & Htaken & Hm)%star_inv.
  destruct (regexp.strip ".js" r2) as [r3|] eqn:H3; [|done]. apply strip_inv in H3 as ->.
  destruct (regexp.strip dq r3) as [r4|] eqn:H4; [|done].
  injection Hm as <-. exists (regexp.consumed s r4), (String c taken).
  split_and!; [|done | by simpl; rewrite Hc].
  do 2 f_equal. cbn [app]. f_equal.
  replace (String c (taken +:+ ".js" +:+ r3)) with ((String c taken +:+ ".js") +:+ r3)
    by (by rewrite append_assoc).
  apply consumed_append.
Qed.

Lemma scriptTextPattern_shape (s : string) (m : list string) :
  regexp.match_here pat.scriptTextPattern s = Some m →
  ∃ taken, m = [taken +:+ "js"].
Proof.
  unfold regexp.match_here, pat.scriptTextPattern. cbn [regexp.seq]. cbn [regexp.rmatch].
  intros (taken & r1 & -> & _ & Hm)%star_inv.
  destruct (regexp.strip "js" r1) as [r2|] eqn:H2; [|done]. apply strip_inv in H2 as ->.
  injection Hm as <-. exists taken. f_equal.
  rewrite <- append_assoc. apply consumed_append.
Qed.

(** X5. Every entry of a parsed JavaScript map has a key that is a non-empty
    string of decimal digits and a value that is non-empty and holds no
    double quote. *)
Theorem parseJSMap_entries (jsMapStr key value : string) :
  parseJSMap jsMapStr !! key = Some value →
  key ≠ "" ∧ strings.forallb regexp.digit key = true
  ∧ value ≠ "" ∧ strings.forallb (regexp.other_than pat.quote) value = true.
Proof.
  unfold parseJSMap, regexp.FindAllStringSubmatch.
  set (P := λ k v : string,
         k ≠ "" ∧ strings.forallb regexp.digit k = true
         ∧ v ≠ "" ∧ strings.forallb (regexp.other_than pat.quote) v = true).
  assert (∀ (ms : list (list string)) (acc : gmap string string),
            (∀ m, m ∈ ms → P (sub m 1) (sub m 2)) →
            (∀ k v, acc !! k = Some v → P k v) →
            ∀ k v, foldl (λ result m, <[sub m 1 := sub m 2]> result) acc ms !! k = Some v →
                   P k v) as Hfold.
  { induction ms as [|m ms IH]; intros acc Hms Hacc k v; simpl; [apply Hacc|].
    apply IH.
    - intros m' Hm'. apply Hms. by apply list_elem_of_further.
    - intros k' v'. rewrite lookup_insert. case_decide as Hk.
      + intros [= <-]. subst k'. apply Hms, list_elem_of_here.
      + apply Hacc. }
  apply Hfold.
  - intros m [s' Hm]%find_all_inv.
    apply two_groups_shape in Hm as (g1 & g2 & -> & Hg). exact Hg.
  - intros k v. by rewrite lookup_empty.
Qed.

Lemma parseJSMap_entries_witness :
  "142" ≠ "" ∧ strings.forallb regexp.digit "142" = true
  ∧ "b1a9" ≠ "" ∧ strings.forallb (regexp.other_than pat.quote) "b1a9" = true.
Proof.
  apply (parseJSMap_entries ("142:" +:+ dq +:+ "b1a9" +:+ dq +:+ ",x:1")).
  vm_compute. reflexivity.
Defined.

Lemma script_text_as_reports (parsedURL : URL) (text : string) (w : worker) :
  script_text parsedURL text w
  = foldl (λ w u, report u w) w
          (omap (text_ref_url parsedURL)
                (regexp.FindAllString pat.scriptTextPattern text)).
Proof.
  unfold script_text. revert w.
  induction (regexp.FindAllString pat.scriptTextPattern text) as [|js l IH]; intros w; [done|].
  simpl. rewrite IH. unfold script_text_ref, text_ref_url. by repeat case_match.
Qed.

Lemma FindAllString_scriptText_suffix (text js : string) :
  js ∈ regexp.FindAllString pat.scriptTextPattern text → ∃ taken, js = taken +:+ "js".
Proof.
  unfold regexp.FindAllString. intros (m & -> & [s' Hm]%find_all_inv)%list_elem_of_fmap.
  apply scriptTextPattern_shape in Hm as [taken ->]. by exists taken.
Qed.

(** X6. Whatever the text of a script element, every URL its scan sends
    comes from the page extraction and ends in [js]. *)
Theorem script_text_sends_end_in_js (parsedURL : URL) (text : string) (w : worker) :
  ∃ new,
    results (script_text parsedURL text w) = results w ++ new ∧
    ∀ x, x ∈ new → x.1 = FromPage ∧ ∃ stem, x.2 = stem +:+ "js".
Proof.
  rewrite script_text_as_reports.
  destruct (report_all (omap (text_ref_url parsedURL)
                          (regexp.FindAllString pat.scriptTextPattern text)) w)
    as (new & Hr & _ & Hs).
  exists new. split; [exact Hr|]. intros x Hx.
  destruct (Hs x Hx) as (u & (js & Hjs & Hu)%list_elem_of_omap & ->).
  split; [done|]. simpl.
  apply FindAllString_scriptText_suffix in Hjs as [taken ->].
  unfold text_ref_url in Hu. repeat case_match; simplify_eq.
  - eexists. by rewrite <- !append_assoc.
  - eexists. by rewrite <- !append_assoc.
Qed.

Section Candidates.
Context `{Env}.

(** X7. The shape of the candidate paths.  The paths of patterns 1 and 4 are
    non-empty and hold no double quote; a path of pattern 3 is a non-empty
    quote-free stem followed by [.js]; a path of pattern 2 is
    [static/chunks/], a name, a dot, a hash and [.js]. *)
Theorem candidate_paths_shape (content p : string) :
  (p ∈ directChunkPaths content ∨ p ∈ auPaths content →
   p ≠ "" ∧ strings.forallb (regexp.other_than pat.quote) p = true)
  ∧ (p ∈ publicPaths content →
     ∃ stem, p = stem +:+ ".js" ∧ stem ≠ ""
             ∧ strings.forallb (regexp.other_than pat.quote) stem = true)
  ∧ (p ∈ complexPaths content →
     ∃ name hash, p = "static/chunks/" +:+ name +:+ "." +:+ hash +:+ ".js").
Proof.
  assert (∀ s, p ∈ map (λ m, sub m 2)
                       (regexp.FindAllStringSubmatch pat.directChunkPattern s) →
               p ≠ "" ∧ strings.forallb (regexp.other_than pat.quote) p = true) as Hdirect.
  { intros s (m & -> & [s' Hm]%find_all_inv)%list_elem_of_fmap.
    apply two_groups_shape in Hm as (g1 & g2 & -> & _ & _ & Hg2). exact Hg2. }
  split_and!.
  - intros [Hp | Hp]; [by apply (Hdirect content)|].
    unfold auPaths in Hp. case_match; [|by apply elem_of_nil in Hp].
    by apply (Hdirect _ Hp).
  - unfold publicPaths. intros (m & -> & [s' Hm]%find_all_inv)%list_elem_of_fmap.
    apply publicPathPattern_shape in Hm as (whole & stem & -> & Hstem). by exists stem.
  - unfold complexPaths.
    destruct (FindStringSubmatch_inv pat.complexPattern content) as [-> | [s' Hm]];
      [by intros ?%elem_of_nil|].
    apply complexPattern_shape in Hm as (whole & ids & hashes & ->).
    cbn [length Nat.ltb Nat.leb sub nth].
    intros ([id hash] & -> & _)%list_elem_of_fmap. by eexists _, _.
Qed.

Lemma report_chunk_complete (u : string) (st : gmap string bool * list string) :
  (∀ v, marked st.1 v = true → v ∈ st.2) →
  (∀ v, marked (report_chunk u st).1 v = true → v ∈ (report_chunk u st).2)
  ∧ u ∈ (report_chunk u st).2
  ∧ (∀ v, v ∈ st.2 → v ∈ (report_chunk u st).2).
Proof.
  intros Hinv. unfold report_chunk. destruct (marked st.1 u) eqn:Hu.
  { split_and!; [done | by apply Hinv | done]. }
  simpl. split_and!.
  - intros v [-> | Hv]%marked_insert_inv; apply elem_of_app.
    + right. apply list_elem_of_here.
    + left. by apply Hinv.
  - apply elem_of_app. right. apply list_elem_of_here.
  - intros v Hv. apply elem_of_app. by left.
Qed.

Lemma report_chunks_complete (baseURL : URL) (paths : list string)
    (st : gmap string bool * list string) :
  (∀ v, marked st.1 v = true → v ∈ st.2) →
  (∀ v, marked (report_chunks baseURL paths st).1 v = true
        → v ∈ (report_chunks baseURL paths st).2)
  ∧ (∀ p, p ∈ paths →
          resolveScriptURL baseURL (ensureNextPrefix p) ∈ (report_chunks baseURL paths st).2)
  ∧ (∀ v, v ∈ st.2 → v ∈ (report_chunks baseURL paths st).2).
Proof.
  unfold report_chunks. revert st. induction paths as [|q paths IH]; intros st Hinv.
  { split_and!; [done | by intros ? ?%elem_of_nil | done]. }
  simpl.
  destruct (report_chunk_complete (resolveScriptURL baseURL (ensureNextPrefix q)) st Hinv)
    as (Hinv' & Hq & Hmono).
  destruct (IH _ Hinv') as (Hinv'' & Hpaths & Hmono').
  split_and!; [done | | by auto].
  intros p [-> | Hp]%elem_of_cons; [by apply Hmono' | by apply Hpaths].
Qed.

(** X8. What [ProcessWebpackFile] sends, exactly: when the bundle's URL
    parses, the sends are pairwise distinct and are the resolved, normalised
    paths of the four patterns, all of them; when it does not parse, nothing
    is sent. *)
Theorem ProcessWebpackFile_sends (webpackURL content : string) :
  NoDup (ProcessWebpackFile webpackURL content)
  ∧ (url_Parse webpackURL = None → ProcessWebpackFile webpackURL content = [])
  ∧ (∀ baseURL u,
       url_Parse webpackURL = Some baseURL →
       (u ∈ ProcessWebpackFile webpackURL content
        ↔ ∃ p, p ∈ directChunkPaths content ++ complexPaths content
                   ++ publicPaths content ++ auPaths content
               ∧ u = resolveScriptURL baseURL (ensureNextPrefix p))).
Proof.
  split_and!.
  - apply ProcessWebpackFile_NoDup.
  - intros Hparse. unfold ProcessWebpackFile. by rewrite Hparse.
  - intros baseURL u Hparse. unfold ProcessWebpackFile. rewrite Hparse. split.
    + intros Hu.
      repeat (apply report_chunks_elem in Hu as [Hu | (p & Hp & ->)];
              [|exists p; split; [|done]; rewrite !elem_of_app; by auto]).
      by apply elem_of_nil in Hu.
    + intros (p & Hp & ->).
      set (st0 := (∅, []) : gmap string bool * list string).
      assert (∀ v, marked st0.1 v = true → v ∈ st0.2) as H0.
      { intros v. unfold st0. simpl. by rewrite marked_empty. }
      destruct (report_chunks_complete baseURL (directChunkPaths content) st0 H0)
        as (H1 & Hp1 & _).
      destruct (report_chunks_complete baseURL (complexPaths content) _ H1)
        as (H2 & Hp2 & Hm2).
      destruct (report_chunks_complete baseURL (publicPaths content) _ H2)
        as (H3 & Hp3 & Hm3).
      destruct (report_chunks_complete baseURL (auPaths content) _ H3)
        as (_ & Hp4 & Hm4).
      rewrite !elem_of_app in Hp. destruct Hp as [Hp | [Hp | [Hp | Hp]]].
      * by apply Hm4, Hm3, Hm2, Hp1.
      * by apply Hm4, Hm3, Hp2.
      * by apply Hm4, Hp3.
      * by apply Hp4.
Qed.

End Candidates.

Lemma candidate_paths_shape_witness :
  ∃ stem, "static/chunks/pages/about.js" = stem +:+ ".js" ∧ stem ≠ ""
          ∧ strings.forallb (regexp.other_than pat.quote) stem = true.
Proof.
  apply (@candidate_paths_shape Scenario.web
           ("a.p+" +:+ dq +:+ "static/chunks/pages/about.js" +:+ dq)).
  vm_compute. apply list_elem_of_here.
Defined.

Lemma ProcessWebpackFile_sends_witness :
  Scenario.chunkURL ∈ @ProcessWebpackFile Scenario.web Scenario.bundleURL Scenario.bundleBody.
Proof.
  destruct (@ProcessWebpackFile_sends Scenario.web Scenario.bundleURL Scenario.bundleBody)
    as (_ & _ & Hsends).
  apply (Hsends (mkURL "https" "ex.com" "/_next/static/chunks/webpack-abc.js"));
    [reflexivity|].
  exists "static/chunks/123-xyz.js". split; [|reflexivity].
  vm_compute. apply list_elem_of_here.
Defined.

(** * Further properties of a worker *)

Lemma trace_ok_chunks (l : list (origin * string)) (b : string) (cs : list string)
    (prev : origin * string) :
  trace_ok l → isWebpackBundle b = true → last l = Some prev → guard prev = b →
  trace_ok (l ++ map (pair (FromBundle b)) cs).
Proof.
  revert l prev. induction cs as [|c cs IH]; intros l prev Hl Hb Hlast Hprev.
  { by rewrite app_nil_r. }
  simpl. rewrite cons_middle, app_assoc.
  apply (IH _ (FromBundle b, c)); [|done | by rewrite last_snoc | done].
  by eapply trace_chunk.
Qed.

Lemma trace_ok_report (u : string) (w : worker) :
  trace_ok (results w) → trace_ok (results (report u w)).
Proof.
  intros Hw. unfold report. destruct (marked (processedURLs w) u); [done|].
  by apply trace_page.
Qed.

Lemma trace_ok_foldl {A} (f : worker → A → worker) (l : list A) (w : worker) :
  (∀ w x, trace_ok (results w) → trace_ok (results (f w x))) →
  trace_ok (results w) → trace_ok (results (foldl f w l)).
Proof.
  intros Hf. revert w. induction l as [|x l IH]; intros w Hw; [done|].
  simpl. by apply IH, Hf.
Qed.

Section WorkerTrace.
Context `{Env}.
Variable opts : Options.

Lemma trace_ok_script_src (parsedURL : URL) (scriptTag : ScriptTag) (w : worker) :
  trace_ok (results w) → trace_ok (results (script_src opts parsedURL scriptTag w).1).
Proof.
  intros Hw. unfold script_src. destruct (Attr_src scriptTag) as [js|]; [|done].
  destruct (String.eqb js ""); [done|].
  set (resolvedJS := resolveScriptURL parsedURL js).
  destruct (marked (processedURLs w) resolvedJS); [done|].
  pose proof (trace_page _ resolvedJS Hw) as Hsent.
  destruct (isWebpackBundle resolvedJS) eqn:Hb; [|done].
  destruct (http_get opts resolvedJS) as [webpackBody|]; [|done].
  simpl. apply (trace_ok_chunks _ _ _ (FromPage, resolvedJS)); [done | done | | done].
  by rewrite last_snoc.
Qed.

Lemma trace_ok_each_script (parsedURL : URL) (w : worker) (scriptTag : ScriptTag) :
  trace_ok (results w) → trace_ok (results (each_script opts parsedURL w scriptTag)).
Proof.
  intros Hw. unfold each_script.
  pose proof (trace_ok_script_src parsedURL scriptTag w Hw) as Hsrc.
  destruct (script_src opts parsedURL scriptTag w) as [w1 [|]]; [|done].
  apply trace_ok_foldl; [|done]. intros w' js Hw'. unfold script_text_ref.
  repeat case_match; by try apply trace_ok_report.
Qed.

Lemma trace_ok_each_div (parsedURL : URL) (w : worker) (divTag : DivTag) :
  trace_ok (results w) → trace_ok (results (each_div parsedURL w divTag)).
Proof.
  intros Hw. unfold each_div. repeat case_match; by try apply trace_ok_report.
Qed.

Lemma trace_ok_fetch_url (w : worker) (u : string) :
  trace_ok (results w) → trace_ok (results (fetch_url opts w u)).
Proof.
  intros Hw. unfold fetch_url. repeat case_match; try done.
  apply trace_ok_foldl; [apply trace_ok_each_div|].
  apply trace_ok_foldl; [apply trace_ok_each_script|]. done.
Qed.

Lemma trace_ok_fetch (urls : list string) : trace_ok (results (fetch opts urls)).
Proof. apply trace_ok_foldl; [apply trace_ok_fetch_url | apply trace_nil]. Qed.

End WorkerTrace.

(** In a trace the code can make, a chunk send is preceded by the page send
    of its bundle, with nothing but chunk sends of that bundle in between. *)
Lemma trace_ok_block (l : list (origin * string)) (i : nat) (b c : string) :
  trace_ok l → l !! i = Some (FromBundle b, c) →
  isWebpackBundle b = true
  ∧ ∃ j, j < i ∧ l !! j = Some (FromPage, b)
         ∧ ∀ k, j < k < i → ∃ c', l !! k = Some (FromBundle b, c').
Proof.
  intros Hl. revert i c.
  induction Hl as [|l u Hl IH|l b' c' prev Hl IH Hb Hlast Hprev]; intros i c Hi.
  - by rewrite lookup_nil in Hi.
  - apply lookup_app_Some in Hi as [Hi | [Hlen Hi]].
    + destruct (IH i c Hi) as (Hbb & j & Hj & Hpage & Hblock).
      split; [done|]. exists j. split_and!; [done | by apply lookup_app_l_Some |].
      intros k Hk. destruct (Hblock k Hk) as [c'' Hc'']. exists c''.
      by apply lookup_app_l_Some.
    + apply list_lookup_singleton_Some in Hi as [_ [=]].
  - apply lookup_app_Some in Hi as [Hi | [Hlen Hi]].
    + destruct (IH i c Hi) as (Hbb & j & Hj & Hpage & Hblock).
      split; [done|]. exists j. split_and!; [done | by apply lookup_app_l_Some |].
      intros k Hk. destruct (Hblock k Hk) as [c'' Hc'']. exists c''.
      by apply lookup_app_l_Some.
    + apply list_lookup_singleton_Some in Hi as [Hi0 [= <- <-]].
      assert (i = length l) as -> by lia. split; [done|].
      rewrite last_lookup in Hlast.
      assert (0 < length l) as Hpos.
      { destruct l; [done | simpl; lia]. }
      destruct prev as [[|b''] v]; unfold guard in Hprev; simpl in Hprev; subst.
      * exists (pred (length l)). split_and!; [lia | by apply lookup_app_l_Some | lia].
      * destruct (IH _ _ Hlast) as (_ & j & Hj & Hpage & Hblock).
        exists j. split_and!; [lia | by apply lookup_app_l_Some |].
        intros k Hk. destruct (decide (k = pred (length l))) as [-> | Hne].
        -- exists v. by apply lookup_app_l_Some.
        -- destruct (Hblock k ltac:(lia)) as [c'' Hc'']. exists c''.
           by apply lookup_app_l_Some.
Qed.

Section WorkerMore.
Context `{Env}.
Variable opts : Options.

(** X9. In what a worker sends, every URL that comes from a bundle follows
    the send of that bundle's own URL by the page extraction, with nothing in
    between but other URLs from the same bundle; and the bundle passes the
    bundle test. *)
Theorem chunks_follow_their_bundle (urls : list string) (i : nat) (b c : string) :
  results (fetch opts urls) !! i = Some (FromBundle b, c) →
  isWebpackBundle b = true
  ∧ ∃ j, j < i ∧ results (fetch opts urls) !! j = Some (FromPage, b)
         ∧ ∀ k, j < k < i → ∃ c', results (fetch opts urls) !! k = Some (FromBundle b, c').
Proof. apply trace_ok_block, trace_ok_fetch. Qed.

Lemma page_sends_are_marked (urls : list string) (x : origin * string) :
  x ∈ results (fetch opts urls) → marked (processedURLs (fetch opts urls)) (guard x) = true.
Proof.
  assert (extends (mkWorker ∅ []) (fetch opts urls)) as (new & Hr & _ & _ & Hg).
  { apply extends_foldl. intros. apply extends_fetch_url'. }
  rewrite Hr. intros Hx. by apply Hg.
Qed.

(** X10. A worker fetches nothing twice: a seed it has pulled before, or
    whose URL its page extraction has already sent, is skipped and leaves the
    worker as it was. *)
Theorem worker_skips_known_url (urls : list string) (u : string) :
  u ∈ urls ∨ (FromPage, u) ∈ results (fetch opts urls) →
  fetch opts (urls ++ [u]) = fetch opts urls.
Proof.
  intros Hknown. rewrite fetch_snoc. unfold fetch_url.
  assert (marked (processedURLs (fetch opts urls)) u = true) as ->; [|done].
  destruct Hknown as [Hu | Hu].
  - by apply fetch_marks_seeds.
  - by apply (page_sends_are_marked urls (FromPage, u)).
Qed.

(** X11. A script element whose [src] is new to the worker.  When the
    resolved URL passes the bundle test and its fetch fails, the URL is the
    only thing sent for the element and the element's text is not scanned;
    when it does not pass the test, the URL is sent and the text is scanned. *)
Theorem script_with_new_src (parsedURL : URL) (w : worker) (scriptTag : ScriptTag)
    (js : string) :
  let resolvedJS := resolveScriptURL parsedURL js in
  let sent := mkWorker (<[resolvedJS := true]> (processedURLs w))
                       (results w ++ [(FromPage, resolvedJS)]) in
  Attr_src scriptTag = Some js → js ≠ "" →
  marked (processedURLs w) resolvedJS = false →
  (isWebpackBundle resolvedJS = true → http_get opts resolvedJS = None →
   each_script opts parsedURL w scriptTag = sent)
  ∧ (isWebpackBundle resolvedJS = false →
     each_script opts parsedURL w scriptTag
     = script_text parsedURL (Contents_Text scriptTag) sent).
Proof.
  intros resolvedJS sent Hsrc Hjs Hnew. unfold each_script, script_src.
  rewrite Hsrc. apply String.eqb_neq in Hjs. rewrite Hjs.
  fold resolvedJS. rewrite Hnew. split.
  - intros Hb Hget. by rewrite Hb, Hget.
  - intros Hb. by rewrite Hb.
Qed.

Lemma each_div_as_reports (parsedURL : URL) (divs : list DivTag) (w : worker) :
  foldl (each_div parsedURL) w divs
  = foldl (λ w u, report u w) w (omap (div_ref_url parsedURL) divs).
Proof.
  revert w. induction divs as [|d divs IH]; intros w; [done|].
  simpl. rewrite IH. unfold each_div, div_ref_url. by repeat case_match.
Qed.

(** X12. The [div] elements of a page: every non-empty [data-script-src] is
    resolved and marked, and is sent exactly when the worker had not marked
    it yet; every send is one of these, made by the page extraction: a URL
    named by a [div] is never expanded as a bundle. *)
Theorem div_refs (parsedURL : URL) (divs : list DivTag) (w : worker) :
  let w' := foldl (each_div parsedURL) w divs in
  ∃ new,
    results w' = results w ++ new ∧
    (∀ d js, d ∈ divs → Attr_data_script_src d = Some js → js ≠ "" →
       let u := resolveScriptURL parsedURL js in
       marked (processedURLs w') u = true
       ∧ ((FromPage, u) ∈ new ↔ marked (processedURLs w) u = false)) ∧
    (∀ x, x ∈ new →
       x.1 = FromPage
       ∧ ∃ d js, d ∈ divs ∧ Attr_data_script_src d = Some js ∧ js ≠ ""
                 ∧ x.2 = resolveScriptURL parsedURL js).
Proof.
  intros w'. unfold w'. rewrite each_div_as_reports.
  destruct (report_all (omap (div_ref_url parsedURL) divs) w) as (new & Hr & Hm & Hs).
  exists new. split_and!; [exact Hr | |].
  - intros d js Hd Hattr Hjs. apply Hm. apply list_elem_of_omap. exists d.
    split; [done|]. unfold div_ref_url. rewrite Hattr.
    apply String.eqb_neq in Hjs. by rewrite Hjs.
  - intros x Hx. destruct (Hs x Hx) as (u & (d & Hd & Hu)%list_elem_of_omap & ->).
    split; [done|]. unfold div_ref_url in Hu.
    destruct (Attr_data_script_src d) as [js|] eqn:Hattr; [|done].
    destruct (String.eqb_spec js ""); [done|]. injection Hu as <-.
    by exists d, js.
Qed.

(** X13. The ends of the dispatcher's range.  When the input has no
    non-empty line, [Run] returns nil and every worker has sent nothing;
    when there is a non-empty line and [Workers] is zero or negative, no
    worker is started and [Run] never returns. *)
Theorem run_without_seeds_or_workers (scanned : list string) :
  (if String.eqb (InputFile opts) "" then inl os_Stdin else os_Open (InputFile opts))
  = inl scanned →
  ((∀ u, u ∈ scanned → u = "") →
   ∃ streams, Run opts = ReturnsNil streams
              ∧ length streams = Z.to_nat (Workers opts)
              ∧ ∀ stream, stream ∈ streams → stream = [])
  ∧ ((∃ u, u ∈ scanned ∧ u ≠ "") → (Workers opts ≤ 0)%Z → Run opts = Blocks).
Proof.
  intros Hinput. unfold Run. rewrite Hinput. split.
  - intros Hblank.
    assert (filter (λ u, u ≠ "") scanned = []) as ->.
    { clear Hinput. induction scanned as [|u l IH]; [done|].
      rewrite filter_cons_False.
      - apply IH. intros v Hv. apply Hblank. by apply list_elem_of_further.
      - intros Hne. apply Hne, Hblank, list_elem_of_here. }
    exists (map (λ i, lines (fetch opts (received (Z.to_nat (Workers opts)) i [])))
                (seq 0 (Z.to_nat (Workers opts)))).
    split; [by destruct (Z.to_nat (Workers opts))|].
    split; [by rewrite length_map, length_seq|].
    by intros stream (i & -> & _)%list_elem_of_fmap.
  - intros (u & Hu & Hne) Hworkers.
    replace (Z.to_nat (Workers opts)) with 0 by lia.
    destruct (filter (λ u, u ≠ "") scanned) as [|v l] eqn:Hf; [|done].
    assert (u ∈ filter (λ u, u ≠ "") scanned) as Hin by (by apply list_elem_of_filter).
    rewrite Hf in Hin. by apply elem_of_nil in Hin.
Qed.

End WorkerMore.

Lemma chunks_follow_their_bundle_witness :
  isWebpackBundle Scenario.bundleURL = true
  ∧ ∃ j, j < 1
         ∧ results (@fetch Scenario.web Scenario.opts [Scenario.seed]) !! j
           = Some (FromPage, Scenario.bundleURL)
         ∧ ∀ k, j < k < 1 →
                ∃ c', results (@fetch Scenario.web Scenario.opts [Scenario.seed]) !! k
                      = Some (FromBundle Scenario.bundleURL, c').
Proof.
  apply (@chunks_follow_their_bundle Scenario.web Scenario.opts [Scenario.seed] 1
           Scenario.bundleURL Scenario.chunkURL).
  vm_compute. reflexivity.
Defined.

Lemma worker_skips_known_url_witness :
  @fetch Scenario.web Scenario.opts ([Scenario.seed] ++ [Scenario.bundleURL])
  = @fetch Scenario.web Scenario.opts [Scenario.seed].
Proof.
  apply (@worker_skips_known_url Scenario.web Scenario.opts [Scenario.seed]
           Scenario.bundleURL).
  right. vm_compute. apply list_elem_of_here.
Defined.

Lemma script_with_new_src_witness :
  @each_script Scenario.web Scenario.opts (mkURL "https" "ex.com" "/") (mkWorker ∅ [])
     (mkScript (Some "/js/bundle.js") "load('/js/extra.js')")
  = mkWorker (<["https://ex.com/js/bundle.js" := true]> ∅)
             ([] ++ [(FromPage, "https://ex.com/js/bundle.js")]).
Proof.
  apply (@script_with_new_src Scenario.web Scenario.opts (mkURL "https" "ex.com" "/")
           (mkWorker ∅ []) (mkScript (Some "/js/bundle.js") "load('/js/extra.js')")
           "/js/bundle.js"); reflexivity || discriminate.
Defined.

Lemma div_refs_witness :
  ∃ new,
    results (foldl (each_div (mkURL "https" "ex.com" "/a/b")) (mkWorker ∅ [])
                   [mkDiv (Some "foo.js"); mkDiv None; mkDiv (Some "foo.js")])
    = [] ++ new
    ∧ (FromPage, "https://ex.com/foo.js") ∈ new.
Proof.
  destruct (div_refs (mkURL "https" "ex.com" "/a/b")
              [mkDiv (Some "foo.js"); mkDiv None; mkDiv (Some "foo.js")] (mkWorker ∅ []))
    as (new & Hr & Hsent & _).
  exists new. split; [exact Hr|].
  apply (Hsent (mkDiv (Some "foo.js")) "foo.js");
    [apply list_elem_of_here | reflexivity | discriminate | reflexivity].
Defined.

Lemma run_without_seeds_or_workers_witness :
  @Run Scenario.web (mkOptions "" 0 15 "") = Blocks.
Proof.
  destruct (@run_without_seeds_or_workers Scenario.web (mkOptions "" 0 15 "")
              [Scenario.chunkURL; Scenario.seed] eq_refl) as [_ Hblocks].
  apply Hblocks; [|done].
  exists Scenario.seed. split; [|discriminate].
  apply list_elem_of_further, list_elem_of_here.
Defined.

Section DivPage.
Context `{Env}.
Variable opts : Options.

(** X14. A page without script elements and with one [div] that has a
    non-empty [data-script-src]: the worker sends the resolved URL and
    nothing else, unless that URL is the seed itself, in which case it sends
    nothing. *)
Theorem single_div_page (u html js : string) (parsedURL : URL) :
  http_get opts u = Some html →
  goquery_NewDocumentFromReader html = Some (mkDocument [] [mkDiv (Some js)]) →
  url_Parse u = Some parsedURL →
  js ≠ "" →
  lines (fetch opts [u])
  = if decide (resolveScriptURL parsedURL js = u) then []
    else [resolveScriptURL parsedURL js].
Proof.
  intros Hget Hdoc Hparse Hjs. unfold fetch. cbn [foldl]. unfold fetch_url.
  rewrite marked_empty, Hget, Hdoc, Hparse. cbn [Find_script Find_div foldl].
  unfold each_div. cbn [Attr_data_script_src].
  apply String.eqb_neq in Hjs. rewrite Hjs. unfold report. cbn [processedURLs results].
  rewrite marked_insert, marked_empty, orb_false_r.
  case_decide as Hu.
  - by rewrite bool_decide_eq_true_2.
  - by rewrite bool_decide_eq_false_2.
Qed.

End DivPage.

Lemma single_div_page_witness :
  lines (@fetch (Scenario.table_env
                   [("https://ex.com/a/b", "<div>")]
                   [("<div>", mkDocument [] [mkDiv (Some "foo.js")])]
                   [("https://ex.com/a/b", mkURL "https" "ex.com" "/a/b")] [])
                Scenario.opts ["https://ex.com/a/b"])
  = ["https://ex.com/foo.js"].
Proof.
  apply (@single_div_page _ Scenario.opts "https://ex.com/a/b" "<div>" "foo.js"
           (mkURL "https" "ex.com" "/a/b")); reflexivity || discriminate.
Defined.
